(** * Open3D Core/Registration/Feature.cpp: pair features, SPFH and FPFH

    A shallow embedding of [three::ComputePairFeatures],
    [three::ComputeSPFHFeature] and [three::ComputeFPFHFeature].

    Numeric model.  A finite [double] is a real number of [R] and the
    arithmetic is exact; [M_PI] is [PI].  A NaN can arise only from [acos]
    applied outside [-1, 1]; it is modelled as [None] and every ordered
    comparison with it is false, as in IEEE 754.  Signed zeros are not
    distinguished.  An [int] is an integer of [Z]; the conversion of a
    [double] that does not fit an [int] is undefined in C++ and yields an
    unspecified [int] here.  Reading a [std::vector] or an Eigen matrix
    outside its bounds is undefined behaviour and is modelled as the failure
    [None] of the option monad.

    Where a property hinges on the comparison of rounded values, the
    canonicalisation of [ComputePairFeatures], the function is also given
    over an IEEE arithmetic left abstract, [ComputePairFeatures_double], of
    which the exact arithmetic is the instance [exact_arith]. *)

From Stdlib Require Import Reals Lra Lia ZArith String.
From stdpp Require Import base option list.

Open Scope R_scope.

Module three.

(** ** Eigen vectors *)

Record Vector3d : Type := Vec3 { vx : R; vy : R; vz : R }.

Record Vector4d : Type := Vec4 { c0 : R; c1 : R; c2 : R; c3 : R }.

(** [Eigen::Vector4d::Zero()] *)
Definition Vector4d_Zero : Vector4d := Vec4 0 0 0 0.

(** [a - b] *)
Definition vsub (a b : Vector3d) : Vector3d :=
  Vec3 (vx a - vx b) (vy a - vy b) (vz a - vz b).

(** [a *= s] *)
Definition vscale (a : Vector3d) (s : R) : Vector3d :=
  Vec3 (vx a * s) (vy a * s) (vz a * s).

(** [a /= s] *)
Definition vdiv (a : Vector3d) (s : R) : Vector3d :=
  Vec3 (vx a / s) (vy a / s) (vz a / s).

(** [a.dot(b)] *)
Definition dot (a b : Vector3d) : R :=
  vx a * vx b + vy a * vy b + vz a * vz b.

(** [a.norm()] *)
Definition norm (a : Vector3d) : R := sqrt (dot a a).

(** [a.cross3(b)]: the cross product of the x, y and z coefficients. *)
Definition cross3 (a b : Vector3d) : Vector3d :=
  Vec3 (vy a * vz b - vz a * vy b)
       (vz a * vx b - vx a * vz b)
       (vx a * vy b - vy a * vx b).

(** ** The C library functions used by the code *)

(** [acos] of <math.h>: a NaN ([None]) outside [-1, 1]. *)
Definition c_acos (x : R) : option R :=
  if Rle_dec (Rabs x) 1 then Some (acos x) else None.

(** [a > b] on doubles: false as soon as one side is a NaN. *)
Definition double_gt (a b : option R) : bool :=
  match a, b with
  | Some x, Some y => if Rlt_dec y x then true else false
  | _, _ => false
  end.

(** [atan2(y, x)] of <math.h>, the angle of the point (x, y) in [-PI, PI]. *)
Definition atan2 (y x : R) : R :=
  if Rlt_dec 0 x then atan (y / x)
  else if Rlt_dec x 0 then
    (if Rle_dec 0 y then atan (y / x) + PI else atan (y / x) - PI)
  else if Rlt_dec 0 y then PI / 2
  else if Rlt_dec y 0 then - (PI / 2)
  else 0.

(** [floor] of <math.h>, a double again. *)
Definition floor (x : R) : R := IZR (Zfloor x).

(** ** ComputePairFeatures (Feature.cpp, lines 37-69) *)

(** The state after the canonicalisation of lines 49-58: the two normal
    copies, the connecting vector [dp2p1] (here [direction]) and
    [result(2)]. *)
Record Canonical : Type := MkCanonical {
  n1_copy : Vector3d;
  n2_copy : Vector3d;
  direction : Vector3d;
  result2 : R
}.

(** Lines 49-50, for either normal. *)
Definition angle_of (n dp2p1 : Vector3d) (result3 : R) : R :=
  dot n dp2p1 / result3.

(** The test of line 51. *)
Definition swap_test (angle1 angle2 : R) : bool :=
  double_gt (c_acos (Rabs angle1)) (c_acos (Rabs angle2)).

(** Lines 47-58. *)
Definition canonicalize (n1 n2 dp2p1 : Vector3d) (result3 : R) : Canonical :=
  let angle1 := angle_of n1 dp2p1 result3 in
  let angle2 := angle_of n2 dp2p1 result3 in
  if swap_test angle1 angle2
  then MkCanonical n2 n1 (vscale dp2p1 (-1)) (- angle2)
  else MkCanonical n1 n2 dp2p1 angle1.

(** Lines 59-68. *)
Definition frame_features (c : Canonical) (result3 : R) : Vector4d :=
  let v := cross3 (direction c) (n1_copy c) in
  let v_norm := norm v in
  if Req_dec_T v_norm 0 then Vector4d_Zero
  else
    let v := vdiv v v_norm in
    let w := cross3 (n1_copy c) v in
    Vec4 (atan2 (dot w (n2_copy c)) (dot (n1_copy c) (n2_copy c)))
         (dot v (n2_copy c))
         (result2 c)
         result3.

Definition ComputePairFeatures (p1 n1 p2 n2 : Vector3d) : Vector4d :=
  let dp2p1 := vsub p2 p1 in
  let result3 := norm dp2p1 in
  if Req_dec_T result3 0 then Vector4d_Zero
  else frame_features (canonicalize n1 n2 dp2p1 result3) result3.

(** ** ComputePairFeatures on doubles (Feature.cpp, lines 37-69)

    The same function over an IEEE arithmetic that is left abstract: [D] is
    the type [double], NaN and infinities included, [V] is
    [Eigen::Vector3d], and every operation is whatever the compiled code
    computes, rounding included.  Two facts on comparisons are assumed, both
    true of IEEE doubles: [>] is asymmetric, and of two doubles that are not
    NaN either the first is [>] the second or it is [<=] the second. *)
Class DoubleArith (D V : Type) : Type := MkDoubleArith {
  d_zero : D;
  d_minus_one : D;
  d_neg : D → D;
  d_fabs : D → D;
  d_div : D → D → D;
  d_acos : D → D;
  d_atan2 : D → D → D;
  d_eq : D → D → bool;
  d_gt : D → D → bool;
  d_le : D → D → bool;
  d_isnan : D → bool;
  v_sub : V → V → V;
  v_norm : V → D;
  v_dot : V → V → D;
  v_cross3 : V → V → V;
  v_scale : V → D → V;
  v_div : V → D → V;
  d_gt_asym : ∀ x y, d_gt x y = true → d_gt y x = false;
  d_le_of_not_gt : ∀ x y,
    d_isnan x = false → d_isnan y = false → d_gt x y = false → d_le x y = true
}.

(** [Eigen::Vector4d] of doubles. *)
Record Vector4 (D : Type) : Type := Vec4D { r0 : D; r1 : D; r2 : D; r3 : D }.
Arguments Vec4D {D} _ _ _ _.
Arguments r0 {D} _.
Arguments r1 {D} _.
Arguments r2 {D} _.
Arguments r3 {D} _.

(** The state after lines 47-58, on doubles. *)
Record CanonicalD (D V : Type) : Type := MkCanonicalD {
  reference_normal : V;
  other_normal : V;
  connecting : V;
  third : D
}.
Arguments MkCanonicalD {D V} _ _ _ _.
Arguments reference_normal {D V} _.
Arguments other_normal {D V} _.
Arguments connecting {D V} _.
Arguments third {D V} _.

Section Doubles.

Context {D V : Type} `{!DoubleArith D V}.

(** [Eigen::Vector4d::Zero()] *)
Definition Vector4_Zero : Vector4 D := Vec4D d_zero d_zero d_zero d_zero.

(** Lines 47-58: [reference_normal] is [n1_copy], [other_normal] is
    [n2_copy], [connecting] is [dp2p1] and [third] is [result(2)]. *)
Definition canonicalize_double (n1 n2 dp2p1 : V) (result3 : D)
    : CanonicalD D V :=
  let angle1 := d_div (v_dot n1 dp2p1) result3 in
  let angle2 := d_div (v_dot n2 dp2p1) result3 in
  if d_gt (d_acos (d_fabs angle1)) (d_acos (d_fabs angle2))
  then MkCanonicalD n2 n1 (v_scale dp2p1 d_minus_one) (d_neg angle2)
  else MkCanonicalD n1 n2 dp2p1 angle1.

(** Lines 37-69. *)
Definition ComputePairFeatures_double (p1 n1 p2 n2 : V) : Vector4 D :=
  let dp2p1 := v_sub p2 p1 in
  let result3 := v_norm dp2p1 in
  if d_eq result3 d_zero then Vector4_Zero
  else
    let c := canonicalize_double n1 n2 dp2p1 result3 in
    let v := v_cross3 (connecting c) (reference_normal c) in
    let v_norm_ := v_norm v in
    if d_eq v_norm_ d_zero then Vector4_Zero
    else
      let v := v_div v v_norm_ in
      let w := v_cross3 (reference_normal c) v in
      Vec4D (d_atan2 (v_dot w (other_normal c))
                     (v_dot (reference_normal c) (other_normal c)))
            (v_dot v (other_normal c))
            (third c)
            result3.

End Doubles.

(** The exact arithmetic of the rest of this file as an instance: a double
    is a real or a NaN ([None]), which only [acos] produces; vectors have
    real coefficients. *)
Definition exact_eq (x y : option R) : bool :=
  match x, y with
  | Some a, Some b => if Req_dec_T a b then true else false
  | _, _ => false
  end.

Definition exact_le (x y : option R) : bool :=
  match x, y with
  | Some a, Some b => if Rle_dec a b then true else false
  | _, _ => false
  end.

Definition exact_isnan (x : option R) : bool :=
  match x with Some _ => false | None => true end.

Definition exact_op2 (f : R → R → R) (x y : option R) : option R :=
  a ← x; b ← y; Some (f a b).

Definition exact_by (f : Vector3d → R → Vector3d) (a : Vector3d)
    (s : option R) : Vector3d :=
  match s with Some x => f a x | None => a end.

#[export] Instance exact_arith : DoubleArith (option R) Vector3d.
Proof.
  refine {|
    d_zero := Some 0;
    d_minus_one := Some (-1);
    d_neg := fmap Ropp;
    d_fabs := fmap Rabs;
    d_div := exact_op2 Rdiv;
    d_acos := λ x, x ≫= c_acos;
    d_atan2 := exact_op2 atan2;
    d_eq := exact_eq;
    d_gt := double_gt;
    d_le := exact_le;
    d_isnan := exact_isnan;
    v_sub := vsub;
    v_norm := λ a, Some (norm a);
    v_dot := λ a b, Some (dot a b);
    v_cross3 := cross3;
    v_scale := exact_by vscale;
    v_div := exact_by vdiv
  |}.
  - intros [a|] [b|]; cbn; try discriminate.
    destruct (Rlt_dec b a), (Rlt_dec a b); try reflexivity; try discriminate. lra.
  - intros [a|] [b|]; cbn; try discriminate. intros _ _.
    destruct (Rlt_dec b a), (Rle_dec a b); try reflexivity; try discriminate. lra.
Defined.

(** ** Containers *)

(** [PointCloud] (PointCloud.h): parallel arrays of positions and normals. *)
Record PointCloud : Type := MkPointCloud {
  points_ : list Vector3d;
  normals_ : list Vector3d
}.

(** [Eigen::MatrixXd], stored column by column as Eigen does: the list of
    its columns. *)
Abbreviation MatrixXd := (list (list R)).

Record Feature : Type := MkFeature { data_ : MatrixXd }.

(** [std::make_shared<Feature>()]: an empty matrix. *)
Definition Feature_new : Feature := MkFeature [].

(** Modelled from the spec: [Feature::Resize] is declared in Feature.h, which
    is not part of the sources at hand.  The spec has the container a dense
    matrix of [dim] rows and [n] columns that is zero-filled before any
    histogram is accumulated into it. *)
Definition Resize (f : Feature) (dim n : nat) : Feature :=
  MkFeature (replicate n (replicate dim 0)).

(** A matrix of [rows] rows and [cols] columns. *)
Definition has_dims (m : MatrixXd) (rows cols : nat) : Prop :=
  length m = cols ∧ ∀ c col, m !! c = Some col → length col = rows.

(** [l[z]] for a [std::vector] and an [int] index. *)
Definition c_index {A : Type} (l : list A) (z : Z) : option A :=
  if decide (0 ≤ z)%Z then l !! Z.to_nat z else None.

(** [m(r, c) += x] *)
Definition coeff_add (m : MatrixXd) (r : Z) (c : nat) (x : R)
    : option MatrixXd :=
  col ← m !! c;
  if decide (0 ≤ r < Z.of_nat (length col))%Z
  then Some (<[c := alter (λ y, y + x) (Z.to_nat r) col]> m)
  else None.

(** [m(r, c)] *)
Definition coeff (m : MatrixXd) (r c : nat) : option R :=
  col ← m !! c; col !! r.

(** The sum of the entries of a column, and of the 11-bin sub-histogram
    that starts at row [lo]. *)
Definition sumR (l : list R) : R := foldr Rplus 0 l.

Definition hist_sum (col : list R) (lo : nat) : R :=
  sumR (take 11 (drop lo col)).

(** Modelled from the spec: [KDTreeSearchParam] is declared in KDTreeFlann.h,
    which is not part of the sources at hand; the spec has it a tagged
    variant KNN(k), Radius(r) or Hybrid(r, maxK). *)
Inductive KDTreeSearchParam : Type :=
  | KDTreeSearchParamKNN (knn : Z)
  | KDTreeSearchParamRadius (radius : R)
  | KDTreeSearchParamHybrid (radius : R) (max_nn : Z).

(** A [KDTreeFlann] is used through its [Search] method only: the indices
    and the squared distances of the neighbours of a point. *)
Definition KDTreeFlann : Type :=
  Vector3d → KDTreeSearchParam → list Z * list R.

(** The contract of the neighbourhood query the code relies on: every index
    a query from a point of the cloud returns denotes a point of the
    cloud. *)
Definition valid_search (input : PointCloud) (kdtree : KDTreeFlann)
    (search_param : KDTreeSearchParam) : Prop :=
  ∀ i point, points_ input !! i = Some point →
    Forall (λ j, (0 ≤ j < Z.of_nat (length (points_ input)))%Z)
      (kdtree point search_param).1.

(** A loop over a list that threads a state and stops at the first
    failure. *)
Fixpoint for_each {S A : Type} (body : S → A → option S) (s : S) (l : list A)
    : option S :=
  match l with
  | [] => Some s
  | a :: l => s' ← body s a; for_each body s' l
  end.

(** ** Histogram bins (Feature.cpp, lines 92-103) *)

Definition INT_MIN : Z := -2147483648.
Definition INT_MAX : Z := 2147483647.

(** [if (h_index < 0) h_index = 0; if (h_index >= 11) h_index = 10;] *)
Definition clamp_bin (h_index : Z) : Z :=
  let h_index := if decide (h_index < 0)%Z then 0%Z else h_index in
  if decide (11 ≤ h_index)%Z then 10%Z else h_index.

Section Core.

(** The [int] an out-of-range conversion happens to produce. *)
Variable int_indefinite : R → Z.

(** [PointCloud::HasNormals] (PointCloud.h). *)
Variable HasNormals : PointCloud → bool.

(** The constructor [KDTreeFlann kdtree(input)] (KDTreeFlann.h). *)
Variable build_kdtree : PointCloud → KDTreeFlann.

(** [(int)x]: truncation towards zero. *)
Definition int_of_double (x : R) : Z :=
  let t := if Rle_dec 0 x then Zfloor x else Zceil x in
  if decide (INT_MIN ≤ t ≤ INT_MAX)%Z then t else int_indefinite x.

(** Line 92 with its clamp. *)
Definition bin_f1 (pf0 : R) : Z :=
  clamp_bin (int_of_double (floor (11 * (pf0 + PI) / (2 * PI)))).

(** Lines 96 and 100 with their clamps. *)
Definition bin_f23 (pf : R) : Z :=
  clamp_bin (int_of_double (floor (11 * (pf + 1) * 0.5))).

(** ** ComputeSPFHFeature (Feature.cpp, lines 71-108) *)

(** Line 87. *)
Definition hist_incr_of (indices : list Z) : R :=
  100 / INR (length indices - 1).

(** The body of the loop over the neighbours, lines 90-103, for the
    neighbour [index_k = indices[k]]. *)
Definition accumulate (input : PointCloud) (point normal : Vector3d)
    (hist_incr : R) (i : nat) (feature : Feature) (index_k : Z)
    : option Feature :=
  point_k ← c_index (points_ input) index_k;
  normal_k ← c_index (normals_ input) index_k;
  let pf := ComputePairFeatures point normal point_k normal_k in
  d ← coeff_add (data_ feature) (bin_f1 (c0 pf)) i hist_incr;
  d ← coeff_add d (bin_f23 (c1 pf) + 11) i hist_incr;
  d ← coeff_add d (bin_f23 (c2 pf) + 22) i hist_incr;
  Some (MkFeature d).

(** The body of the loop over the points, lines 80-105.  The loop over
    [k = 1 .. indices.size() - 1] visits the indices after the first.  An
    iteration writes its own column only, so the order in which OpenMP runs
    the iterations does not matter and the loop is modelled in sequence. *)
Definition spfh_point (input : PointCloud) (kdtree : KDTreeFlann)
    (search_param : KDTreeSearchParam) (feature : Feature) (i : nat)
    : option Feature :=
  point ← points_ input !! i;
  normal ← normals_ input !! i;
  let '(indices, distance2) := kdtree point search_param in
  if decide (1 < length indices)%nat
  then for_each (accumulate input point normal (hist_incr_of indices) i)
         feature (drop 1 indices)
  else Some feature.

Definition ComputeSPFHFeature (input : PointCloud) (kdtree : KDTreeFlann)
    (search_param : KDTreeSearchParam) : option Feature :=
  let feature := Resize Feature_new 33 (length (points_ input)) in
  for_each (spfh_point input kdtree search_param) feature
    (seq 0 (length (points_ input))).

(** What the body of the loop over the points does to its own column:
    without a true neighbour nothing, otherwise [indices.size() - 1]
    increments in each sub-histogram. *)
Definition point_effect (input : PointCloud) (kdtree : KDTreeFlann)
    (search_param : KDTreeSearchParam) (i : nat) (col col' : list R) : Prop :=
  length col' = 33%nat ∧
  ∀ point, points_ input !! i = Some point →
    let indices := (kdtree point search_param).1 in
    if decide (1 < length indices)%nat
    then ∀ lo, lo = 0%nat ∨ lo = 11%nat ∨ lo = 22%nat →
           hist_sum col' lo
           = hist_sum col lo + INR (length indices - 1) * hist_incr_of indices
    else col' = col.

(** ** ComputeFPFHFeature (Feature.cpp, lines 112-125) *)

Definition no_normal_message : string :=
  String.append
    "[ComputeFPFHFeature] Failed because input point cloud has no normal."
    (String (Ascii.ascii_of_nat 10) EmptyString).

(** The result is the returned feature together with the messages handed to
    [PrintDebug]. *)
Definition ComputeFPFHFeature (input : PointCloud)
    (search_param : KDTreeSearchParam) : option (Feature * list string) :=
  let feature := Resize Feature_new 33 (length (points_ input)) in
  if negb (HasNormals input) then Some (feature, [no_normal_message])
  else
    let kdtree := build_kdtree input in
    spfh ← ComputeSPFHFeature input kdtree search_param;
    Some (feature, []).

End Core.

(** ** The aggregation step as the specification words it (section 4.4)

    The following two definitions follow the specification, not the code:
    FPFH(i) = SPFH(i) + (1/k) * the sum of SPFH(j) / distance(i, j) over the
    neighbours j at a strictly positive distance, k being their number, and
    FPFH(i) = SPFH(i) when k = 0. *)

Definition col_add (a b : list R) : list R := zip_with Rplus a b.

Definition col_scale (s : R) (a : list R) : list R := Rmult s <$> a.

#[local] Instance Rlt_decision (x y : R) : Decision (x < y) := Rlt_dec x y.

(** [own] is SPFH(i); [neighbours] pairs SPFH(j) with distance(i, j). *)
Definition FPFH_spec (own : list R) (neighbours : list (list R * R))
    : list R :=
  let usable := filter (λ nb, 0 < nb.2) neighbours in
  let k := length usable in
  if decide (k = 0%nat) then own
  else col_add own
         (col_scale (1 / INR k)
            (foldr (λ nb acc, col_add (col_scale (/ nb.2) nb.1) acc)
               (replicate 33 0) usable)).

(** ** A cloud of two points one unit apart, with equal normals *)

Definition two_points : PointCloud :=
  MkPointCloud [Vec3 0 0 0; Vec3 1 0 0] [Vec3 0 0 1; Vec3 0 0 1].

(** Its neighbourhood query: the point itself first, then the other one. *)
Definition two_points_kdtree : KDTreeFlann :=
  λ point _,
    if Req_dec_T (vx point) 0 then ([0; 1]%Z, [0; 1]) else ([1; 0]%Z, [0; 1]).

(** The same positions without normals. *)
Definition bare_points : PointCloud :=
  MkPointCloud [Vec3 0 0 0; Vec3 1 0 0] [].

(** A cloud of one point, which its query finds alone. *)
Definition lone_point : PointCloud :=
  MkPointCloud [Vec3 0 0 0] [Vec3 0 0 1].

Definition lone_point_kdtree : KDTreeFlann := λ _ _, ([0]%Z, [0]).

(** An instance of [HasNormals] for the examples: a cloud has normals when
    it is not empty and its normals are parallel to its positions. *)
Definition has_normals (input : PointCloud) : bool :=
  bool_decide (0 < length (points_ input))%nat
  && bool_decide (length (normals_ input) = length (points_ input)).

(** An x86 conversion of an out-of-range double gives [INT_MIN]. *)
Definition int_indefinite_x86 : R → Z := λ _, INT_MIN.

(** * Further definitions

    Used by the properties beyond the claims. *)

(** [a + b] *)
Definition vadd (a b : Vector3d) : Vector3d :=
  Vec3 (vx a + vx b) (vy a + vy b) (vz a + vz b).

(** What one neighbour does to a column: lines 92-103 on a column taken
    alone. *)
Definition bump_column (int_indefinite : R → Z) (hist_incr : R)
    (col : list R) (pf : Vector4d) : list R :=
  alter (λ y, y + hist_incr) (Z.to_nat (bin_f23 int_indefinite (c2 pf) + 22))
    (alter (λ y, y + hist_incr) (Z.to_nat (bin_f23 int_indefinite (c1 pf) + 11))
       (alter (λ y, y + hist_incr) (Z.to_nat (bin_f1 int_indefinite (c0 pf))) col)).

(** The position and the normal read for a neighbour index, line 91. *)
Definition neighbour_of (input : PointCloud) (index_k : Z)
    : option (Vector3d * Vector3d) :=
  point_k ← c_index (points_ input) index_k;
  normal_k ← c_index (normals_ input) index_k;
  Some (point_k, normal_k).

(** The histogram of a point over a list of neighbours, from a zero
    column. *)
Definition histogram (int_indefinite : R → Z) (point normal : Vector3d)
    (hist_incr : R) (neighbours : list (Vector3d * Vector3d)) : list R :=
  foldl (λ col nb,
           bump_column int_indefinite hist_incr col
             (ComputePairFeatures point normal nb.1 nb.2))
    (replicate 33 0) neighbours.

(** Column [i] of the SPFH matrix, computed on its own. *)
Definition spfh_column_of (int_indefinite : R → Z) (input : PointCloud)
    (kdtree : KDTreeFlann) (search_param : KDTreeSearchParam) (i : nat)
    : option (list R) :=
  point ← points_ input !! i;
  normal ← normals_ input !! i;
  let indices := (kdtree point search_param).1 in
  if decide (1 < length indices)%nat
  then neighbours ← mapM (neighbour_of input) (drop 1 indices);
       Some (histogram int_indefinite point normal (hist_incr_of indices)
               neighbours)
  else Some (replicate 33 0).

(** The three rows one neighbour adds to. *)
Definition rows_of (int_indefinite : R → Z) (pf : Vector4d) : nat * nat * nat :=
  (Z.to_nat (bin_f1 int_indefinite (c0 pf)),
   Z.to_nat (bin_f23 int_indefinite (c1 pf) + 11),
   Z.to_nat (bin_f23 int_indefinite (c2 pf) + 22)).

(** Coordinates small enough for the difference of two positions to be a
    finite double. *)
Definition coordinate_bound : R := 2 ^ 1000.

Definition within_bound (p : Vector3d) : Prop :=
  Rabs (vx p) <= coordinate_bound ∧ Rabs (vy p) <= coordinate_bound ∧
  Rabs (vz p) <= coordinate_bound.

(** The cloud with every position moved by [t]. *)
Definition translate_cloud (t : Vector3d) (input : PointCloud) : PointCloud :=
  MkPointCloud ((λ p, vadd p t) <$> points_ input) (normals_ input).

Definition translate_neighbour (t : Vector3d) (nb : Vector3d * Vector3d)
    : Vector3d * Vector3d :=
  (vadd nb.1 t, nb.2).

(** A query for [two_points] with another first index and other squared
    distances. *)
Definition two_points_kdtree_far : KDTreeFlann :=
  λ point _,
    if Req_dec_T (vx point) 0 then ([7; 1]%Z, [9; 9]) else ([7; 0]%Z, [9; 9]).

(** * Properties *)

(** ** Vector geometry *)

Lemma lagrange_identity (a b : Vector3d) :
  dot a a * dot b b = dot a b * dot a b + dot (cross3 a b) (cross3 a b).
Proof. destruct a, b; unfold dot, cross3; simpl; ring. Qed.

Lemma dot_self_nonneg (a : Vector3d) : 0 <= dot a a.
Proof. destruct a; unfold dot; simpl; nra. Qed.

Lemma norm_nonneg (a : Vector3d) : 0 <= norm a.
Proof. apply sqrt_pos. Qed.

Lemma norm_sqr (a : Vector3d) : norm a * norm a = dot a a.
Proof. apply sqrt_sqrt, dot_self_nonneg. Qed.

Lemma cauchy_schwarz (a b : Vector3d) : Rabs (dot a b) <= norm a * norm b.
Proof.
  unfold norm. rewrite <- sqrt_mult by apply dot_self_nonneg.
  rewrite <- sqrt_Rsqr_abs. apply sqrt_le_1_alt.
  unfold Rsqr. rewrite (lagrange_identity a b).
  pose proof (dot_self_nonneg (cross3 a b)). lra.
Qed.

Lemma angle_of_bound (n d : Vector3d) :
  norm n = 1 → norm d ≠ 0 → Rabs (angle_of n d (norm d)) <= 1.
Proof.
  intros Hn Hd. unfold angle_of.
  pose proof (norm_nonneg d) as Hpos.
  pose proof (cauchy_schwarz n d) as Hcs. rewrite Hn in Hcs.
  unfold Rdiv. rewrite Rabs_mult, (Rabs_inv (norm d)), (Rabs_pos_eq (norm d)) by assumption.
  apply (Rmult_le_reg_r (norm d)); [lra|].
  rewrite Rmult_assoc, Rinv_l by assumption. lra.
Qed.

Lemma norm_vdiv_self (v : Vector3d) : norm v ≠ 0 → norm (vdiv v (norm v)) = 1.
Proof.
  intros Hv. unfold norm at 1.
  replace (dot (vdiv v (norm v)) (vdiv v (norm v))) with 1; [apply sqrt_1|].
  pose proof (norm_sqr v) as Hs.
  destruct v as [x y z]; unfold dot, vdiv in *; simpl in *.
  set (s := norm _) in *.
  transitivity ((x * x + y * y + z * z) / (s * s)); [rewrite <- Hs|]; field; assumption.
Qed.

Lemma atan2_bound (y x : R) : - PI <= atan2 y x <= PI.
Proof.
  pose proof PI_RGT_0 as Hpi.
  pose proof (atan_bound (y / x)) as Hb.
  unfold atan2.
  destruct (Rlt_dec 0 x) as [Hx|Hx]; [lra|].
  destruct (Rlt_dec x 0) as [Hx'|Hx'].
  - assert (/ x < 0) as Hinv by (apply Rinv_lt_0_compat; assumption).
    destruct (Rle_dec 0 y) as [Hy|Hy].
    + assert (atan (y / x) <= atan 0) as Hle.
      { destruct (Req_dec_T (y / x) 0) as [->|Hne]; [lra|].
        left. apply atan_increasing. unfold Rdiv in *. nra. }
      rewrite atan_0 in Hle. lra.
    + assert (atan 0 < atan (y / x)) as Hlt.
      { apply atan_increasing. unfold Rdiv. nra. }
      rewrite atan_0 in Hlt. lra.
  - destruct (Rlt_dec 0 y); [lra|]. destruct (Rlt_dec y 0); lra.
Qed.

(** ** ComputePairFeatures *)

Lemma vsub_self (p : Vector3d) : vsub p p = Vec3 0 0 0.
Proof. destruct p; unfold vsub; simpl; f_equal; ring. Qed.

Lemma norm_zero_vector : norm (Vec3 0 0 0) = 0.
Proof. unfold norm, dot; simpl. replace (0 * 0 + 0 * 0 + 0 * 0) with 0 by ring. apply sqrt_0. Qed.

(** C5: for coincident points (the connecting vector has norm zero),
    [ComputePairFeatures] returns the exact zero 4-tuple, whatever the two
    normals are. *)
Theorem ComputePairFeatures_coincident (p n1 n2 : Vector3d) :
  norm (vsub p p) = 0 ∧ ComputePairFeatures p n1 p n2 = Vector4d_Zero.
Proof.
  assert (norm (vsub p p) = 0) as H0 by (rewrite vsub_self; apply norm_zero_vector).
  split; [assumption|].
  unfold ComputePairFeatures. destruct (Req_dec_T _ 0); [reflexivity|contradiction].
Qed.

Lemma dot_vscale_r (n d : Vector3d) (s : R) : dot n (vscale d s) = dot n d * s.
Proof. destruct n, d; unfold dot, vscale; simpl; ring. Qed.

Lemma angle_of_negated (n d : Vector3d) (r : R) :
  angle_of n (vscale d (-1)) r = - angle_of n d r.
Proof. unfold angle_of. rewrite dot_vscale_r. unfold Rdiv. ring. Qed.

(** On the exact instance the function on doubles is [ComputePairFeatures]. *)
Lemma ComputePairFeatures_double_exact (p1 n1 p2 n2 : Vector3d) :
  ComputePairFeatures_double p1 n1 p2 n2
  = let pf := ComputePairFeatures p1 n1 p2 n2 in
    Vec4D (Some (c0 pf)) (Some (c1 pf)) (Some (c2 pf)) (Some (c3 pf)).
Proof.
  cbv zeta. unfold ComputePairFeatures_double, ComputePairFeatures. cbn.
  destruct (Req_dec_T (norm (vsub p2 p1)) 0); [reflexivity|].
  unfold canonicalize_double, canonicalize, swap_test, angle_of. cbn.
  destruct (double_gt _ _); unfold frame_features; cbn;
    destruct (Req_dec_T _ 0); reflexivity.
Qed.

Lemma exact_unit_normal_acos (n d : Vector3d) :
  norm n = 1 → norm d ≠ 0 →
  d_isnan (d_acos (d_fabs (d_div (v_dot n d) (v_norm d)))) = false.
Proof.
  intros Hn Hd. cbn. unfold c_acos. rewrite Rabs_Rabsolu.
  pose proof (angle_of_bound n d Hn Hd) as Hb. unfold angle_of in Hb.
  destruct (Rle_dec _ 1); [reflexivity|contradiction].
Qed.



Lemma Rabs_le_interval (x b : R) : Rabs x <= b → - b <= x <= b.
Proof. unfold Rabs. destruct (Rcase_abs x); lra. Qed.

Lemma canonicalize_units (n1 n2 d : Vector3d) (r : R) :
  norm n1 = 1 → norm n2 = 1 →
  norm (n1_copy (canonicalize n1 n2 d r)) = 1 ∧
  norm (n2_copy (canonicalize n1 n2 d r)) = 1.
Proof. intros H1 H2. unfold canonicalize. destruct (swap_test _ _); simpl; auto. Qed.

Lemma canonicalize_result2 (n1 n2 d : Vector3d) :
  norm n1 = 1 → norm n2 = 1 → norm d ≠ 0 →
  Rabs (result2 (canonicalize n1 n2 d (norm d))) <= 1.
Proof.
  intros H1 H2 Hd. unfold canonicalize.
  destruct (swap_test _ _); simpl; rewrite ?Rabs_Ropp; apply angle_of_bound; assumption.
Qed.

(** C10: with unit normals the 4-tuple (f1, f2, f3, distance) returned by
    [ComputePairFeatures] has f1 in [-PI, PI], f2 and f3 in [-1, 1] and a
    distance that is not negative. *)
Theorem ComputePairFeatures_ranges (p1 n1 p2 n2 : Vector3d) :
  norm n1 = 1 → norm n2 = 1 →
  let pf := ComputePairFeatures p1 n1 p2 n2 in
  - PI <= c0 pf <= PI ∧ -1 <= c1 pf <= 1 ∧ -1 <= c2 pf <= 1 ∧ 0 <= c3 pf.
Proof.
  intros H1 H2 pf. pose proof PI_RGT_0 as Hpi.
  unfold pf, ComputePairFeatures.
  destruct (Req_dec_T _ 0) as [|Hd]; [simpl; lra|].
  set (d := vsub p2 p1) in *.
  destruct (canonicalize_units n1 n2 d (norm d) H1 H2) as [Hu1 Hu2].
  pose proof (canonicalize_result2 n1 n2 d H1 H2 Hd) as Hr2.
  set (c := canonicalize n1 n2 d (norm d)) in *.
  unfold frame_features.
  destruct (Req_dec_T _ 0) as [|Hv]; [simpl; lra|]. simpl.
  split; [apply atan2_bound|].
  split.
  - pose proof (cauchy_schwarz (vdiv (cross3 (direction c) (n1_copy c))
      (norm (cross3 (direction c) (n1_copy c)))) (n2_copy c)) as Hcs.
    rewrite norm_vdiv_self, Hu2 in Hcs by assumption.
    apply Rabs_le_interval. lra.
  - split; [apply Rabs_le_interval; assumption|apply norm_nonneg].
Qed.

(** ** Histogram bins *)

Lemma clamp_bin_range (h : Z) : (0 ≤ clamp_bin h ≤ 10)%Z.
Proof. unfold clamp_bin. repeat case_decide; lia. Qed.

Lemma int_of_double_small (int_indefinite : R → Z) (z : Z) :
  (INT_MIN ≤ z ≤ INT_MAX)%Z → int_of_double int_indefinite (IZR z) = z.
Proof.
  intros Hz. unfold int_of_double.
  assert ((if Rle_dec 0 (IZR z) then Zfloor (IZR z) else Zceil (IZR z)) = z) as ->.
  { destruct (Rle_dec 0 (IZR z)); [apply ZfloorZ|].
    unfold Zceil. rewrite ZfloorNZ. lia. }
  rewrite decide_True by assumption. reflexivity.
Qed.

Lemma bin_f1_upper (int_indefinite : R → Z) : bin_f1 int_indefinite PI = 10%Z.
Proof.
  unfold bin_f1, floor.
  replace (11 * (PI + PI) / (2 * PI)) with (IZR 11)
    by (pose proof PI_neq0; field; assumption).
  rewrite ZfloorZ, int_of_double_small by (unfold INT_MIN, INT_MAX; lia).
  reflexivity.
Qed.

Lemma bin_f23_upper (int_indefinite : R → Z) : bin_f23 int_indefinite 1 = 10%Z.
Proof.
  unfold bin_f23, floor.
  replace (11 * (1 + 1) * 0.5) with (IZR 11) by lra.
  rewrite ZfloorZ, int_of_double_small by (unfold INT_MIN, INT_MAX; lia).
  reflexivity.
Qed.

Lemma bin_f1_lower (int_indefinite : R → Z) : bin_f1 int_indefinite (- PI) = 0%Z.
Proof.
  unfold bin_f1, floor.
  replace (11 * (- PI + PI) / (2 * PI)) with (IZR 0)
    by (pose proof PI_neq0; field; assumption).
  rewrite ZfloorZ, int_of_double_small by (unfold INT_MIN, INT_MAX; lia).
  reflexivity.
Qed.

Lemma bin_f23_lower (int_indefinite : R → Z) : bin_f23 int_indefinite (- 1) = 0%Z.
Proof.
  unfold bin_f23, floor.
  replace (11 * (- 1 + 1) * 0.5) with (IZR 0) by lra.
  rewrite ZfloorZ, int_of_double_small by (unfold INT_MIN, INT_MAX; lia).
  reflexivity.
Qed.

(** Inside the domain the clamps are idle. *)
Lemma bin_f23_inside (int_indefinite : R → Z) (value : R) :
  -1 <= value < 1 → bin_f23 int_indefinite value = Zfloor (11 * (value - -1) / (1 - -1)).
Proof.
  intros Hv. unfold bin_f23, floor.
  replace (11 * (value - -1) / (1 - -1)) with (11 * (value + 1) * 0.5) by lra.
  pose proof (Zfloor_bound (11 * (value + 1) * 0.5)) as Hb.
  assert (0 ≤ Zfloor (11 * (value + 1) * 0.5) < 11)%Z as Hz.
  { split; [apply Zfloor_lub; lra|]. apply lt_IZR. lra. }
  rewrite int_of_double_small by (unfold INT_MIN, INT_MAX; lia).
  unfold clamp_bin. repeat case_decide; lia.
Qed.

Lemma bin_f1_inside (int_indefinite : R → Z) (value : R) :
  - PI <= value < PI → bin_f1 int_indefinite value = Zfloor (11 * (value - - PI) / (PI - - PI)).
Proof.
  intros Hv. unfold bin_f1, floor. pose proof PI_RGT_0 as Hpi.
  replace (11 * (value - - PI) / (PI - - PI)) with (11 * (value + PI) / (2 * PI))
    by (field; lra).
  set (q := 11 * (value + PI) / (2 * PI)).
  assert (0 <= q < 11) as Hq.
  { unfold q. split.
    - apply Rmult_le_pos; [nra|]. left. apply Rinv_0_lt_compat. lra.
    - apply (Rmult_lt_reg_r (2 * PI)); [lra|]. unfold Rdiv.
      rewrite Rmult_assoc, Rinv_l by lra. lra. }
  pose proof (Zfloor_bound q) as Hb.
  assert (0 ≤ Zfloor q < 11)%Z as Hz.
  { split; [apply Zfloor_lub; lra|]. apply lt_IZR. lra. }
  rewrite int_of_double_small by (unfold INT_MIN, INT_MAX; lia).
  unfold clamp_bin. repeat case_decide; lia.
Qed.

Lemma bin_f1_range (int_indefinite : R → Z) (value : R) :
  (0 ≤ bin_f1 int_indefinite value ≤ 10)%Z.
Proof. apply clamp_bin_range. Qed.

Lemma bin_f23_range (int_indefinite : R → Z) (value : R) :
  (0 ≤ bin_f23 int_indefinite value ≤ 10)%Z.
Proof. apply clamp_bin_range. Qed.

(** C8: for every real value, whatever an out-of-range conversion to [int]
    yields, the clamped bin index lies in [0, 10]; a value exactly at the
    upper bound (PI for f1, 1 for f2 and f3) maps to bin 10; hence the three
    rows written, [h], [h + 11] and [h + 22], lie inside the 33 rows of a
    column. *)
Theorem bin_index_in_range (int_indefinite : R → Z) (value : R) :
  (0 ≤ bin_f1 int_indefinite value ≤ 10)%Z ∧
  (0 ≤ bin_f23 int_indefinite value ≤ 10)%Z ∧
  bin_f1 int_indefinite PI = 10%Z ∧ bin_f23 int_indefinite 1 = 10%Z ∧
  (0 ≤ bin_f1 int_indefinite value < 33)%Z ∧
  (0 ≤ bin_f23 int_indefinite value + 11 < 33)%Z ∧
  (0 ≤ bin_f23 int_indefinite value + 22 < 33)%Z.
Proof.
  pose proof (bin_f1_range int_indefinite value) as H1.
  pose proof (bin_f23_range int_indefinite value) as H23.
  pose proof (bin_f1_upper int_indefinite).
  pose proof (bin_f23_upper int_indefinite).
  repeat split; try assumption; lia.
Qed.

(** ** ComputeSPFHFeature *)

Lemma sumR_cons (a : R) (l : list R) : sumR (a :: l) = a + sumR l.
Proof. reflexivity. Qed.

Lemma sumR_app (l k : list R) : sumR (l ++ k) = sumR l + sumR k.
Proof.
  induction l as [|a l IH]; [unfold sumR at 2; simpl; lra|].
  rewrite <- app_comm_cons, !sumR_cons, IH. lra.
Qed.

Lemma sumR_replicate_0 (n : nat) : sumR (replicate n 0) = 0.
Proof.
  induction n as [|n IH]; [reflexivity|].
  change (replicate (S n) 0) with (0 :: replicate n 0). rewrite sumR_cons, IH. lra.
Qed.

Lemma sumR_alter (l : list R) (r : nat) (x : R) :
  (r < length l)%nat → sumR (alter (λ y, y + x) r l) = sumR l + x.
Proof.
  revert r. induction l as [|a l IH]; intros r Hr; simpl in Hr; [lia|].
  destruct r as [|r].
  - change (alter (λ y, y + x) 0%nat (a :: l)) with ((a + x) :: l).
    rewrite !sumR_cons. lra.
  - change (alter (λ y, y + x) (S r) (a :: l)) with (a :: alter (λ y, y + x) r l).
    rewrite !sumR_cons, IH by lia. lra.
Qed.

Lemma hist_sum_alter_in (col : list R) (lo r : nat) (x : R) :
  (lo ≤ r < lo + 11)%nat → (r < length col)%nat →
  hist_sum (alter (λ y, y + x) r col) lo = hist_sum col lo + x.
Proof.
  intros Hr Hlen. unfold hist_sum.
  rewrite drop_alter_ge, take_alter_lt by lia.
  apply sumR_alter. rewrite length_take, length_drop. lia.
Qed.

Lemma hist_sum_alter_out (col : list R) (lo r : nat) (x : R) :
  (r < lo ∨ lo + 11 ≤ r)%nat →
  hist_sum (alter (λ y, y + x) r col) lo = hist_sum col lo.
Proof.
  intros Hr. unfold hist_sum.
  destruct (decide (r < lo)%nat).
  - rewrite drop_alter_lt by lia. reflexivity.
  - rewrite drop_alter_ge, take_alter_ge by lia. reflexivity.
Qed.

Lemma sumR_three_hists (col : list R) :
  length col = 33%nat →
  sumR col = hist_sum col 0 + hist_sum col 11 + hist_sum col 22.
Proof.
  intros Hlen. unfold hist_sum.
  assert (col = take 11 col ++ take 11 (drop 11 col) ++ drop 22 col) as Hsplit.
  { change 22%nat with (11 + 11)%nat. rewrite <- (drop_drop col 11 11), !take_drop.
    reflexivity. }
  rewrite (take_ge (drop 22 col)) by (rewrite length_drop; lia).
  change (drop 0 col) with col.
  rewrite Hsplit at 1. rewrite !sumR_app. lra.
Qed.

Lemma coeff_add_Some (m : MatrixXd) (r : Z) (c : nat) (x : R) (col : list R) :
  m !! c = Some col → (0 ≤ r < Z.of_nat (length col))%Z →
  coeff_add m r c x = Some (<[c := alter (λ y, y + x) (Z.to_nat r) col]> m).
Proof.
  intros Hc Hr. unfold coeff_add. rewrite Hc. simpl.
  rewrite decide_True by assumption. reflexivity.
Qed.

Lemma c_index_valid {A : Type} (l : list A) (z : Z) :
  (0 ≤ z < Z.of_nat (length l))%Z → is_Some (c_index l z).
Proof.
  intros Hz. unfold c_index. rewrite decide_True by lia.
  apply lookup_lt_is_Some. lia.
Qed.

Section Loops.

Variable int_indefinite : R → Z.
Variable input : PointCloud.
Hypothesis normals_parallel : length (normals_ input) = length (points_ input).

Local Abbreviation N := (length (points_ input)).

(** One neighbour adds [hist_incr] to each of the three sub-histograms of
    column [i] and touches nothing else. *)
Lemma accumulate_effect (point normal : Vector3d) (hist_incr : R) (i : nat)
    (feature : Feature) (index_k : Z) (col : list R) :
  (0 ≤ index_k < Z.of_nat N)%Z →
  data_ feature !! i = Some col → length col = 33%nat →
  ∃ col', accumulate int_indefinite input point normal hist_incr i feature index_k
            = Some (MkFeature (<[i := col']> (data_ feature))) ∧
          length col' = 33%nat ∧
          hist_sum col' 0 = hist_sum col 0 + hist_incr ∧
          hist_sum col' 11 = hist_sum col 11 + hist_incr ∧
          hist_sum col' 22 = hist_sum col 22 + hist_incr.
Proof.
  intros Hk Hcol Hlen. unfold accumulate.
  destruct (c_index_valid (points_ input) index_k Hk) as [point_k ->].
  destruct (c_index_valid (normals_ input) index_k) as [normal_k ->];
    [rewrite normals_parallel; assumption|].
  cbn [mbind option_bind]. set (pf := ComputePairFeatures point normal point_k normal_k).
  assert (i < length (data_ feature))%nat as Hi
    by (apply lookup_lt_is_Some; eauto).
  pose proof (bin_f1_range int_indefinite (c0 pf)) as H1.
  pose proof (bin_f23_range int_indefinite (c1 pf)) as H2.
  pose proof (bin_f23_range int_indefinite (c2 pf)) as H3.
  set (h1 := bin_f1 int_indefinite (c0 pf)) in *.
  set (h2 := bin_f23 int_indefinite (c1 pf)) in *.
  set (h3 := bin_f23 int_indefinite (c2 pf)) in *.
  set (bump := λ y : R, y + hist_incr).
  set (col1 := alter bump (Z.to_nat h1) col).
  set (col2 := alter bump (Z.to_nat (h2 + 11)) col1).
  set (col3 := alter bump (Z.to_nat (h3 + 22)) col2).
  assert (length col1 = 33%nat) as Hl1 by (unfold col1; rewrite length_alter; assumption).
  assert (length col2 = 33%nat) as Hl2 by (unfold col2; rewrite length_alter; assumption).
  rewrite (coeff_add_Some _ _ _ _ col Hcol) by lia. cbn [mbind option_bind]. fold bump col1.
  rewrite (coeff_add_Some _ _ _ _ col1)
    by (first [apply list_lookup_insert_eq; assumption | lia]).
  cbn [mbind option_bind]. fold bump col2. rewrite list_insert_insert_eq.
  rewrite (coeff_add_Some _ _ _ _ col2)
    by (first [apply list_lookup_insert_eq; assumption | lia]).
  cbn [mbind option_bind]. fold bump col3. rewrite list_insert_insert_eq.
  exists col3. split; [reflexivity|].
  split; [unfold col3; rewrite length_alter; assumption|].
  unfold col3, col2, col1, bump. repeat split.
  - rewrite !hist_sum_alter_out by lia. apply hist_sum_alter_in; lia.
  - rewrite hist_sum_alter_out by lia.
    rewrite hist_sum_alter_in by (rewrite ?length_alter; lia).
    rewrite hist_sum_alter_out by lia. reflexivity.
  - rewrite hist_sum_alter_in by (rewrite ?length_alter; lia).
    rewrite !hist_sum_alter_out by lia. reflexivity.
Qed.

(** The loop over the neighbours. *)
Lemma neighbours_effect (point normal : Vector3d) (hist_incr : R) (i : nat)
    (neighbours : list Z) :
  Forall (λ j, (0 ≤ j < Z.of_nat N)%Z) neighbours →
  ∀ (feature : Feature) (col : list R),
  data_ feature !! i = Some col → length col = 33%nat →
  ∃ col', for_each (accumulate int_indefinite input point normal hist_incr i)
            feature neighbours
            = Some (MkFeature (<[i := col']> (data_ feature))) ∧
          length col' = 33%nat ∧
          hist_sum col' 0 = hist_sum col 0 + INR (length neighbours) * hist_incr ∧
          hist_sum col' 11 = hist_sum col 11 + INR (length neighbours) * hist_incr ∧
          hist_sum col' 22 = hist_sum col 22 + INR (length neighbours) * hist_incr.
Proof.
  induction 1 as [|j neighbours Hj _ IH]; intros feature col Hcol Hlen.
  - exists col. simpl. rewrite list_insert_id by assumption.
    destruct feature; simpl. repeat split; try assumption; try reflexivity; lra.
  - destruct (accumulate_effect point normal hist_incr i feature j col Hj Hcol Hlen)
      as (col1 & Hacc & Hl1 & Ha & Hb & Hc).
    assert (i < length (data_ feature))%nat as Hi
      by (apply lookup_lt_is_Some; eauto).
    destruct (IH (MkFeature (<[i := col1]> (data_ feature))) col1)
      as (col' & Hloop & Hl' & Ha' & Hb' & Hc');
      [apply list_lookup_insert_eq; assumption|assumption|].
    exists col'. cbn [for_each]. rewrite Hacc. cbn [mbind option_bind].
    rewrite Hloop. cbn [data_]. rewrite list_insert_insert_eq.
    split; [reflexivity|]. split; [assumption|].
    change (length (j :: neighbours)) with (S (length neighbours)).
    rewrite S_INR. repeat split; lra.
Qed.

Variable kdtree : KDTreeFlann.
Variable search_param : KDTreeSearchParam.
Hypothesis search_valid : valid_search input kdtree search_param.

Lemma spfh_point_effect (feature : Feature) (i : nat) (col : list R) :
  (i < N)%nat → data_ feature !! i = Some col → length col = 33%nat →
  ∃ col', spfh_point int_indefinite input kdtree search_param feature i
            = Some (MkFeature (<[i := col']> (data_ feature))) ∧
          point_effect input kdtree search_param i col col'.
Proof.
  intros Hi Hcol Hlen. unfold spfh_point.
  destruct (lookup_lt_is_Some_2 (points_ input) i Hi) as [point Hpoint].
  destruct (lookup_lt_is_Some_2 (normals_ input) i) as [normal Hnormal];
    [rewrite normals_parallel; assumption|].
  rewrite Hpoint, Hnormal. simpl.
  pose proof (search_valid i point Hpoint) as Hvalid.
  destruct (kdtree point search_param) as [indices distance2] eqn:Hsearch.
  simpl in Hvalid.
  destruct (decide (1 < length indices)%nat) as [Hmany|Hfew].
  - destruct (neighbours_effect point normal (hist_incr_of indices) i
                (drop 1 indices) (Forall_drop _ 1 _ Hvalid) feature col Hcol Hlen)
      as (col' & Hloop & Hl' & Ha & Hb & Hc).
    exists col'. split; [exact Hloop|]. split; [assumption|].
    intros point' Hpoint'. rewrite Hpoint in Hpoint'. injection Hpoint' as <-.
    rewrite Hsearch. simpl. rewrite decide_True by assumption.
    rewrite length_drop in Ha, Hb, Hc.
    intros lo [-> | [-> | ->]]; assumption.
  - exists col. rewrite list_insert_id by assumption.
    split; [destruct feature; reflexivity|]. split; [assumption|].
    intros point' Hpoint'. rewrite Hpoint in Hpoint'. injection Hpoint' as <-.
    rewrite Hsearch. simpl. rewrite decide_False by assumption. reflexivity.
Qed.

(** The loop over the points: every column is rewritten by its own
    iteration only. *)
Lemma points_loop_effect (todo : list nat) :
  NoDup todo → Forall (λ i, (i < N)%nat) todo →
  ∀ feature : Feature,
  (∀ c, (c < N)%nat → ∃ col, data_ feature !! c = Some col ∧ length col = 33%nat) →
  length (data_ feature) = N →
  ∃ feature',
    for_each (spfh_point int_indefinite input kdtree search_param) feature todo
      = Some feature' ∧
    length (data_ feature') = N ∧
    (∀ c, c ∉ todo → data_ feature' !! c = data_ feature !! c) ∧
    (∀ c col, c ∈ todo → data_ feature !! c = Some col →
       ∃ col', data_ feature' !! c = Some col' ∧
               point_effect input kdtree search_param c col col').
Proof.
  induction todo as [|i todo IH]; intros Hnodup Hbound feature Hcols Hlen.
  - exists feature. simpl. repeat split; try assumption; try reflexivity.
    intros c col Hin. apply elem_of_nil in Hin. contradiction.
  - apply NoDup_cons in Hnodup as [Hfresh Hnodup].
    apply Forall_cons in Hbound as [Hi Hbound].
    destruct (Hcols i Hi) as (col & Hcol & Hl).
    destruct (spfh_point_effect feature i col Hi Hcol Hl) as (col1 & Hstep & Heff).
    set (feature1 := MkFeature (<[i := col1]> (data_ feature))) in *.
    destruct (IH Hnodup Hbound feature1) as (feature' & Hloop & Hlen' & Hout & Hin).
    { intros c Hc. unfold feature1. cbn [data_].
      destruct (decide (c = i)) as [->|Hne].
      - exists col1. split; [apply list_lookup_insert_eq; lia|apply Heff].
      - rewrite list_lookup_insert_ne by congruence. apply Hcols, Hc. }
    { unfold feature1. cbn [data_]. rewrite length_insert. assumption. }
    exists feature'. cbn [for_each]. rewrite Hstep. cbn [mbind option_bind].
    split; [exact Hloop|]. split; [assumption|]. split.
    + intros c Hc. apply not_elem_of_cons in Hc as [Hne Hc].
      rewrite (Hout c Hc). unfold feature1. cbn [data_].
      apply list_lookup_insert_ne. congruence.
    + intros c colc Hc Hcolc. apply elem_of_cons in Hc as [->|Hc].
      * exists col1. rewrite (Hout i Hfresh). unfold feature1. cbn [data_].
        rewrite list_lookup_insert_eq by lia.
        rewrite Hcol in Hcolc. injection Hcolc as <-. split; [reflexivity|exact Heff].
      * apply (Hin c colc Hc). unfold feature1. cbn [data_].
        rewrite list_lookup_insert_ne; [assumption|]. intros ->. contradiction.
Qed.

Lemma ComputeSPFHFeature_effect :
  ∃ feature,
    ComputeSPFHFeature int_indefinite input kdtree search_param = Some feature ∧
    length (data_ feature) = N ∧
    ∀ i, (i < N)%nat →
      ∃ col, data_ feature !! i = Some col ∧
             point_effect input kdtree search_param i (replicate 33 0) col.
Proof.
  unfold ComputeSPFHFeature.
  destruct (points_loop_effect (seq 0 N) (NoDup_seq 0 N)) with
    (feature := Resize Feature_new 33 N) as (feature & Hloop & Hlen & _ & Hin).
  - apply Forall_forall. intros i Hi. apply elem_of_seq in Hi. lia.
  - intros c Hc. exists (replicate 33 0). cbn [Resize data_].
    split; [apply lookup_replicate_2; assumption|apply length_replicate].
  - cbn [Resize data_]. apply length_replicate.
  - exists feature. split; [exact Hloop|]. split; [assumption|].
    intros i Hi. apply (Hin i).
    + apply elem_of_seq. lia.
    + cbn [Resize data_]. apply lookup_replicate_2. assumption.
Qed.

End Loops.

Lemma hist_sum_zero_column (lo : nat) : hist_sum (replicate 33 0) lo = 0.
Proof. unfold hist_sum. rewrite drop_replicate, take_replicate. apply sumR_replicate_0. Qed.

Lemma spfh_column (int_indefinite : R → Z) (input : PointCloud)
    (kdtree : KDTreeFlann) (search_param : KDTreeSearchParam)
    (i : nat) (point : Vector3d) :
  length (normals_ input) = length (points_ input) →
  valid_search input kdtree search_param →
  points_ input !! i = Some point →
  ∃ feature col,
    ComputeSPFHFeature int_indefinite input kdtree search_param = Some feature ∧
    data_ feature !! i = Some col ∧ length col = 33%nat ∧
    let indices := (kdtree point search_param).1 in
    if decide (1 < length indices)%nat
    then hist_sum col 0 = 100 ∧ hist_sum col 11 = 100 ∧ hist_sum col 22 = 100
    else col = replicate 33 0.
Proof.
  intros Hnormals Hvalid Hpoint.
  destruct (ComputeSPFHFeature_effect int_indefinite input Hnormals kdtree
              search_param Hvalid) as (feature & Hrun & _ & Hcols).
  assert (i < length (points_ input))%nat as Hi
    by (apply lookup_lt_is_Some; eauto).
  destruct (Hcols i Hi) as (col & Hcol & Hlen & Heff).
  exists feature, col. repeat (split; [assumption|]).
  specialize (Heff point Hpoint). cbv zeta in Heff |- *.
  destruct (decide (1 < length (kdtree point search_param).1)%nat) as [Hmany|_];
    [|assumption].
  assert (INR (length (kdtree point search_param).1 - 1) ≠ 0) as Hne
    by (apply not_0_INR; lia).
  assert (∀ lo, lo = 0%nat ∨ lo = 11%nat ∨ lo = 22%nat → hist_sum col lo = 100) as Hsum.
  { intros lo Hlo. rewrite (Heff lo Hlo), hist_sum_zero_column.
    unfold hist_incr_of. field. assumption. }
  repeat split; apply Hsum; auto.
Qed.

(** C3: on a cloud whose normals are parallel to its positions and whose
    queries return indices of the cloud, [ComputeSPFHFeature] returns a
    feature, and for a point [i] whose query returns more than one index the
    increment is 100 divided by the number of indices after the first, each
    of the three 11-bin sub-histograms of column [i] sums to 100 and the
    column sums to 300 (in exact real arithmetic). *)
Theorem ComputeSPFHFeature_histograms_sum_to_100 (int_indefinite : R → Z)
    (input : PointCloud) (kdtree : KDTreeFlann) (search_param : KDTreeSearchParam)
    (i : nat) (point : Vector3d) :
  length (normals_ input) = length (points_ input) →
  valid_search input kdtree search_param →
  points_ input !! i = Some point →
  let indices := (kdtree point search_param).1 in
  (1 < length indices)%nat →
  hist_incr_of indices = 100 / INR (length (drop 1 indices)) ∧
  ∃ feature col,
    ComputeSPFHFeature int_indefinite input kdtree search_param = Some feature ∧
    data_ feature !! i = Some col ∧ length col = 33%nat ∧
    hist_sum col 0 = 100 ∧ hist_sum col 11 = 100 ∧ hist_sum col 22 = 100 ∧
    sumR col = 300.
Proof.
  intros Hnormals Hvalid Hpoint indices Hmany.
  split; [unfold hist_incr_of; rewrite length_drop; reflexivity|].
  destruct (spfh_column int_indefinite input kdtree search_param i point
              Hnormals Hvalid Hpoint) as (feature & col & Hrun & Hcol & Hlen & Hsums).
  cbv zeta in Hsums. fold indices in Hsums.
  rewrite decide_True in Hsums by assumption.
  destruct Hsums as (Ha & Hb & Hc).
  exists feature, col. repeat (split; [assumption|]).
  rewrite (sumR_three_hists col Hlen). lra.
Qed.

(** C9: under the same conditions, the column of a point whose query
    returns at most one index is exactly all-zero. *)
Theorem ComputeSPFHFeature_no_neighbour_zero_column (int_indefinite : R → Z)
    (input : PointCloud) (kdtree : KDTreeFlann) (search_param : KDTreeSearchParam)
    (i : nat) (point : Vector3d) :
  length (normals_ input) = length (points_ input) →
  valid_search input kdtree search_param →
  points_ input !! i = Some point →
  (length (kdtree point search_param).1 ≤ 1)%nat →
  ∃ feature,
    ComputeSPFHFeature int_indefinite input kdtree search_param = Some feature ∧
    data_ feature !! i = Some (replicate 33 0) ∧
    ∀ r, (r < 33)%nat → coeff (data_ feature) r i = Some 0.
Proof.
  intros Hnormals Hvalid Hpoint Hfew.
  destruct (spfh_column int_indefinite input kdtree search_param i point
              Hnormals Hvalid Hpoint) as (feature & col & Hrun & Hcol & Hlen & Hsums).
  cbv zeta in Hsums. rewrite decide_False in Hsums by lia. subst col.
  exists feature. repeat (split; [assumption|]).
  intros r Hr. unfold coeff. rewrite Hcol. cbn [mbind option_bind].
  apply lookup_replicate_2. assumption.
Qed.

Lemma Resize_zero (f : Feature) (dim n : nat) :
  has_dims (data_ (Resize f dim n)) dim n ∧
  ∀ r c, (r < dim)%nat → (c < n)%nat → coeff (data_ (Resize f dim n)) r c = Some 0.
Proof.
  cbn [Resize data_]. split; [split|].
  - apply length_replicate.
  - intros c col Hc. apply lookup_replicate_1 in Hc as [-> _]. apply length_replicate.
  - intros r c Hr Hc. unfold coeff. rewrite lookup_replicate_2 by assumption.
    cbn [mbind option_bind]. apply lookup_replicate_2. assumption.
Qed.

(** C2: for a cloud without normals [ComputeFPFHFeature] does not fail: it
    returns a matrix of 33 rows and as many columns as the cloud has points,
    all of whose entries are zero, and hands one diagnostic message to
    [PrintDebug]. *)
Theorem ComputeFPFHFeature_without_normals (int_indefinite : R → Z)
    (HasNormals : PointCloud → bool) (build_kdtree : PointCloud → KDTreeFlann)
    (input : PointCloud) (search_param : KDTreeSearchParam) :
  HasNormals input = false →
  ∃ feature,
    ComputeFPFHFeature int_indefinite HasNormals build_kdtree input search_param
      = Some (feature, [no_normal_message]) ∧
    has_dims (data_ feature) 33 (length (points_ input)) ∧
    ∀ r c, (r < 33)%nat → (c < length (points_ input))%nat →
      coeff (data_ feature) r c = Some 0.
Proof.
  intros Hno. exists (Resize Feature_new 33 (length (points_ input))).
  split; [|apply Resize_zero].
  unfold ComputeFPFHFeature. rewrite Hno. reflexivity.
Qed.

(** C4: [ComputeFPFHFeature] returns the matrix its initial [Resize] left,
    for every cloud, also one that has normals (whose normals are then
    parallel to its positions and whose queries return indices of the
    cloud): the SPFH matrix it computes is dropped and the returned feature
    is never written. *)
Theorem ComputeFPFHFeature_returns_resized (int_indefinite : R → Z)
    (HasNormals : PointCloud → bool) (build_kdtree : PointCloud → KDTreeFlann)
    (input : PointCloud) (search_param : KDTreeSearchParam) :
  (HasNormals input = true →
     length (normals_ input) = length (points_ input) ∧
     valid_search input (build_kdtree input) search_param) →
  ∃ messages,
    ComputeFPFHFeature int_indefinite HasNormals build_kdtree input search_param
      = Some (Resize Feature_new 33 (length (points_ input)), messages).
Proof.
  intros Hwf. unfold ComputeFPFHFeature.
  destruct (HasNormals input) eqn:Hhas; cbn [negb].
  - destruct (Hwf eq_refl) as [Hnormals Hvalid].
    destruct (ComputeSPFHFeature_effect int_indefinite input Hnormals
                (build_kdtree input) search_param Hvalid) as (spfh & -> & _).
    exists []. reflexivity.
  - exists [no_normal_message]. reflexivity.
Qed.

(** ** The missing aggregation *)

Lemma sumR_col_add (a b : list R) :
  length a = length b → sumR (col_add a b) = sumR a + sumR b.
Proof.
  revert b. induction a as [|x a IH]; intros [|y b] Hlen; try discriminate.
  - unfold col_add, sumR; simpl; lra.
  - change (col_add (x :: a) (y :: b)) with ((x + y) :: col_add a b).
    rewrite !sumR_cons, IH by (simpl in Hlen; lia). lra.
Qed.

Lemma sumR_col_scale (s : R) (a : list R) : sumR (col_scale s a) = s * sumR a.
Proof.
  induction a as [|x a IH]; [unfold col_scale, sumR; simpl; lra|].
  change (col_scale s (x :: a)) with (s * x :: col_scale s a).
  rewrite !sumR_cons, IH. lra.
Qed.

Lemma hist_sum_col_add (a b : list R) (lo : nat) :
  length a = length b →
  hist_sum (col_add a b) lo = hist_sum a lo + hist_sum b lo.
Proof.
  intros Hlen. unfold hist_sum, col_add.
  rewrite zip_with_drop, zip_with_take. apply sumR_col_add.
  rewrite !length_take, !length_drop. lia.
Qed.

Lemma hist_sum_col_scale (s : R) (a : list R) (lo : nat) :
  hist_sum (col_scale s a) lo = s * hist_sum a lo.
Proof.
  unfold hist_sum, col_scale. rewrite <- fmap_drop, <- fmap_take.
  apply sumR_col_scale.
Qed.

Lemma two_points_ready :
  length (normals_ two_points) = length (points_ two_points) ∧
  valid_search two_points two_points_kdtree (KDTreeSearchParamKNN 2).
Proof.
  split; [reflexivity|]. intros i point _. unfold two_points_kdtree.
  destruct (Req_dec_T (vx point) 0); cbn; repeat constructor; lia.
Qed.

Lemma unit_distance : norm (vsub (Vec3 1 0 0) (Vec3 0 0 0)) = 1.
Proof.
  unfold norm, dot, vsub; cbn.
  replace ((1 - 0) * (1 - 0) + (0 - 0) * (0 - 0) + (0 - 0) * (0 - 0)) with 1 by ring.
  apply sqrt_1.
Qed.

Lemma unit_z : norm (Vec3 0 0 1) = 1.
Proof.
  unfold norm, dot; cbn. replace (0 * 0 + 0 * 0 + 1 * 1) with 1 by ring. apply sqrt_1.
Qed.

(** C1: the code at the cloud [two_points].  [ComputeSPFHFeature] gives
    columns [spfh0] and [spfh1]; the aggregation of the specification would
    make the first sub-histogram of column 0 sum to 200, the points being at
    distance 1; [ComputeFPFHFeature] returns an all-zero column 0 instead. *)
Theorem ComputeFPFHFeature_misses_aggregation :
  ∃ spfh spfh0 spfh1 fpfh,
    ComputeSPFHFeature int_indefinite_x86 two_points two_points_kdtree
      (KDTreeSearchParamKNN 2) = Some spfh ∧
    data_ spfh !! 0%nat = Some spfh0 ∧ data_ spfh !! 1%nat = Some spfh1 ∧
    ComputeFPFHFeature int_indefinite_x86 has_normals (λ _, two_points_kdtree)
      two_points (KDTreeSearchParamKNN 2) = Some (fpfh, []) ∧
    data_ fpfh !! 0%nat = Some (replicate 33 0) ∧
    norm (vsub (Vec3 1 0 0) (Vec3 0 0 0)) = 1 ∧
    hist_sum (FPFH_spec spfh0 [(spfh0, 0); (spfh1, 1)]) 0 = 200 ∧
    data_ fpfh !! 0%nat ≠ Some (FPFH_spec spfh0 [(spfh0, 0); (spfh1, 1)]).
Proof.
  destruct two_points_ready as [Hnormals Hvalid].
  destruct (spfh_column int_indefinite_x86 two_points two_points_kdtree
              (KDTreeSearchParamKNN 2) 0 (Vec3 0 0 0) Hnormals Hvalid eq_refl)
    as (spfh & spfh0 & Hrun & Hcol0 & Hlen0 & Hsum0).
  destruct (spfh_column int_indefinite_x86 two_points two_points_kdtree
              (KDTreeSearchParamKNN 2) 1 (Vec3 1 0 0) Hnormals Hvalid eq_refl)
    as (spfh' & spfh1 & Hrun' & Hcol1 & Hlen1 & Hsum1).
  rewrite Hrun in Hrun'. injection Hrun' as <-.
  assert (hist_sum spfh0 0 = 100) as H0.
  { cbv zeta in Hsum0. unfold two_points_kdtree in Hsum0. cbn [vx] in Hsum0.
    destruct (Req_dec_T 0 0); [|contradiction].
    cbn in Hsum0. apply Hsum0. }
  assert (hist_sum spfh1 0 = 100) as H1.
  { cbv zeta in Hsum1. unfold two_points_kdtree in Hsum1. cbn [vx] in Hsum1.
    destruct (Req_dec_T 1 0); [lra|].
    cbn in Hsum1. apply Hsum1. }
  assert (hist_sum (FPFH_spec spfh0 [(spfh0, 0); (spfh1, 1)]) 0 = 200) as Hspec.
  { unfold FPFH_spec.
    rewrite filter_cons_False by (cbn; lra).
    rewrite filter_cons_True by (cbn; lra).
    rewrite filter_nil. cbn [length foldr fst snd].
    rewrite decide_False by lia.
    rewrite hist_sum_col_add, hist_sum_col_scale, hist_sum_col_add,
      hist_sum_col_scale, hist_sum_zero_column, H0, H1.
    - cbn [INR]. field.
    - unfold col_scale. rewrite length_fmap, length_replicate. assumption.
    - unfold col_scale, col_add.
      rewrite length_fmap, length_zip_with, length_fmap, length_replicate. lia. }
  exists spfh, spfh0, spfh1, (Resize Feature_new 33 2).
  repeat (split; [first [assumption | reflexivity | exact unit_distance]|]).
  split.
  { unfold ComputeFPFHFeature.
    change (has_normals two_points) with true. cbn [negb]. rewrite Hrun. reflexivity. }
  split; [reflexivity|]. split; [exact unit_distance|]. split; [exact Hspec|].
  cbn [Resize data_]. intros Heq.
  change (replicate 2 (replicate 33 0) !! 0%nat) with (Some (replicate 33 0)) in Heq.
  injection Heq as Heq. rewrite <- Heq, hist_sum_zero_column in Hspec. lra.
Qed.

(** ** Concrete instances *)

Lemma lone_point_ready :
  length (normals_ lone_point) = length (points_ lone_point) ∧
  valid_search lone_point lone_point_kdtree (KDTreeSearchParamKNN 1).
Proof.
  split; [reflexivity|]. intros i point _. cbn. repeat constructor; lia.
Qed.

Lemma two_points_first_query :
  (two_points_kdtree (Vec3 0 0 0) (KDTreeSearchParamKNN 2)).1 = [0; 1]%Z.
Proof.
  unfold two_points_kdtree. cbn [vx].
  destruct (Req_dec_T 0 0); [reflexivity|contradiction].
Qed.

Lemma unit_x : norm (Vec3 1 0 0) = 1.
Proof.
  unfold norm, dot; cbn. replace (1 * 1 + 0 * 0 + 0 * 0) with 1 by ring. apply sqrt_1.
Qed.




Lemma ComputeFPFHFeature_without_normals_witness :
  has_normals bare_points = false ∧
  ∃ feature,
    ComputeFPFHFeature int_indefinite_x86 has_normals (λ _, two_points_kdtree)
      bare_points (KDTreeSearchParamKNN 2) = Some (feature, [no_normal_message]) ∧
    has_dims (data_ feature) 33 2 ∧
    ∀ r c, (r < 33)%nat → (c < 2)%nat → coeff (data_ feature) r c = Some 0.
Proof.
  split; [reflexivity|].
  apply (ComputeFPFHFeature_without_normals int_indefinite_x86 has_normals
           (λ _, two_points_kdtree) bare_points (KDTreeSearchParamKNN 2)).
  reflexivity.
Defined.

Lemma ComputeSPFHFeature_histograms_sum_to_100_witness :
  length (normals_ two_points) = length (points_ two_points) ∧
  valid_search two_points two_points_kdtree (KDTreeSearchParamKNN 2) ∧
  points_ two_points !! 0%nat = Some (Vec3 0 0 0) ∧
  (1 < length (two_points_kdtree (Vec3 0 0 0) (KDTreeSearchParamKNN 2)).1)%nat ∧
  ∃ feature col,
    ComputeSPFHFeature int_indefinite_x86 two_points two_points_kdtree
      (KDTreeSearchParamKNN 2) = Some feature ∧
    data_ feature !! 0%nat = Some col ∧ length col = 33%nat ∧
    hist_sum col 0 = 100 ∧ hist_sum col 11 = 100 ∧ hist_sum col 22 = 100 ∧
    sumR col = 300.
Proof.
  assert (1 < length (two_points_kdtree (Vec3 0 0 0) (KDTreeSearchParamKNN 2)).1)%nat
    as Hmany by (rewrite two_points_first_query; cbn; lia).
  split; [apply two_points_ready|]. split; [apply two_points_ready|].
  split; [reflexivity|]. split; [exact Hmany|].
  apply (ComputeSPFHFeature_histograms_sum_to_100 int_indefinite_x86 two_points
           two_points_kdtree (KDTreeSearchParamKNN 2) 0 (Vec3 0 0 0)
           (proj1 two_points_ready) (proj2 two_points_ready) eq_refl Hmany).
Defined.

Lemma ComputeFPFHFeature_returns_resized_witness :
  (has_normals two_points = true →
     length (normals_ two_points) = length (points_ two_points) ∧
     valid_search two_points two_points_kdtree (KDTreeSearchParamKNN 2)) ∧
  ∃ messages,
    ComputeFPFHFeature int_indefinite_x86 has_normals (λ _, two_points_kdtree)
      two_points (KDTreeSearchParamKNN 2)
      = Some (Resize Feature_new 33 2, messages).
Proof.
  split; [intros _; exact two_points_ready|].
  apply (ComputeFPFHFeature_returns_resized int_indefinite_x86 has_normals
           (λ _, two_points_kdtree) two_points (KDTreeSearchParamKNN 2)).
  intros _. exact two_points_ready.
Defined.





Lemma ComputeSPFHFeature_no_neighbour_zero_column_witness :
  length (normals_ lone_point) = length (points_ lone_point) ∧
  valid_search lone_point lone_point_kdtree (KDTreeSearchParamKNN 1) ∧
  points_ lone_point !! 0%nat = Some (Vec3 0 0 0) ∧
  (length (lone_point_kdtree (Vec3 0 0 0) (KDTreeSearchParamKNN 1)).1 ≤ 1)%nat ∧
  ∃ feature,
    ComputeSPFHFeature int_indefinite_x86 lone_point lone_point_kdtree
      (KDTreeSearchParamKNN 1) = Some feature ∧
    data_ feature !! 0%nat = Some (replicate 33 0) ∧
    ∀ r, (r < 33)%nat → coeff (data_ feature) r 0 = Some 0.
Proof.
  split; [apply lone_point_ready|]. split; [apply lone_point_ready|].
  split; [reflexivity|]. split; [cbn; lia|].
  apply (ComputeSPFHFeature_no_neighbour_zero_column int_indefinite_x86 lone_point
           lone_point_kdtree (KDTreeSearchParamKNN 1) 0 (Vec3 0 0 0)
           (proj1 lone_point_ready) (proj2 lone_point_ready) eq_refl).
  cbn. lia.
Defined.

Lemma ComputePairFeatures_ranges_witness :
  norm (Vec3 0 0 1) = 1 ∧
  let pf := ComputePairFeatures (Vec3 0 0 0) (Vec3 0 0 1) (Vec3 1 0 0) (Vec3 0 0 1) in
  - PI <= c0 pf <= PI ∧ -1 <= c1 pf <= 1 ∧ -1 <= c2 pf <= 1 ∧ 0 <= c3 pf.
Proof.
  split; [exact unit_z|].
  apply (ComputePairFeatures_ranges (Vec3 0 0 0) (Vec3 0 0 1) (Vec3 1 0 0)
           (Vec3 0 0 1) unit_z unit_z).
Defined.

(** * Further properties *)

(** ** Translations of ComputePairFeatures *)

Lemma vec3_eq (a b : Vector3d) :
  vx a = vx b → vy a = vy b → vz a = vz b → a = b.
Proof. destruct a, b; cbn; intros -> -> ->; reflexivity. Qed.

Lemma vsub_translate (p1 p2 t : Vector3d) :
  vsub (vadd p2 t) (vadd p1 t) = vsub p2 p1.
Proof. apply vec3_eq; cbn; ring. Qed.

(** X1: [ComputePairFeatures] is invariant under a translation of the two
    positions. *)
Theorem ComputePairFeatures_translation (p1 n1 p2 n2 t : Vector3d) :
  ComputePairFeatures (vadd p1 t) n1 (vadd p2 t) n2
  = ComputePairFeatures p1 n1 p2 n2.
Proof. unfold ComputePairFeatures. rewrite vsub_translate. reflexivity. Qed.

(** ** Exchange of the two points *)

Lemma vsub_reverse (p1 p2 : Vector3d) : vsub p1 p2 = vscale (vsub p2 p1) (-1).
Proof. apply vec3_eq; cbn; ring. Qed.

Lemma norm_negated (d : Vector3d) : norm (vscale d (-1)) = norm d.
Proof.
  unfold norm. f_equal. destruct d; unfold dot, vscale; cbn. ring.
Qed.

(** ** Equal normals and planar pairs *)

Lemma swap_test_same (a : R) : swap_test a a = false.
Proof.
  unfold swap_test, double_gt. destruct (c_acos (Rabs a)); [|reflexivity].
  destruct (Rlt_dec r r); [lra|reflexivity].
Qed.

Lemma cross3_negated_l (d n : Vector3d) :
  cross3 (vscale d (-1)) n = vscale (cross3 d n) (-1).
Proof. apply vec3_eq; cbn; ring. Qed.

(** X4: with equal normals the test of line 51 never swaps, and exchanging
    the two points negates the third coefficient. *)
Theorem ComputePairFeatures_equal_normals_exchange (p1 p2 n : Vector3d) :
  c2 (ComputePairFeatures p2 n p1 n) = - c2 (ComputePairFeatures p1 n p2 n).
Proof.
  unfold ComputePairFeatures. rewrite (vsub_reverse p1 p2), norm_negated.
  set (d := vsub p2 p1).
  destruct (Req_dec_T (norm d) 0); [cbn; ring|].
  unfold canonicalize. rewrite !swap_test_same.
  unfold frame_features. cbn [direction n1_copy n2_copy result2].
  rewrite cross3_negated_l, norm_negated.
  destruct (Req_dec_T _ 0); [cbn; ring|].
  cbn [c2]. apply angle_of_negated.
Qed.

(** Two points in a plane orthogonal to their common unit normal. *)
Lemma planar_pair (p1 p2 n : Vector3d) :
  norm n = 1 → dot n (vsub p2 p1) = 0 →
  ComputePairFeatures p1 n p2 n = Vec4 0 0 0 (norm (vsub p2 p1)).
Proof.
  intros Hn Hperp. unfold ComputePairFeatures.
  set (d := vsub p2 p1) in *.
  destruct (Req_dec_T (norm d) 0) as [Hd|Hd]; [rewrite Hd; reflexivity|].
  unfold canonicalize. rewrite swap_test_same.
  unfold frame_features. cbn [direction n1_copy n2_copy result2].
  assert (dot n n = 1) as Hnn by (rewrite <- norm_sqr, Hn; ring).
  assert (norm (cross3 d n) = norm d) as Hv.
  { unfold norm. f_equal.
    pose proof (lagrange_identity d n) as Hl.
    replace (dot d n) with (dot n d) in Hl by (destruct d, n; unfold dot; cbn; ring).
    rewrite Hperp, Hnn in Hl. lra. }
  rewrite Hv. destruct (Req_dec_T (norm d) 0); [contradiction|].
  assert (dot (vdiv (cross3 d n) (norm d)) n = 0) as Hf2.
  { destruct d, n; unfold dot, vdiv, cross3; cbn. field. assumption. }
  assert (dot (cross3 n (vdiv (cross3 d n) (norm d))) n = 0) as Hw.
  { destruct d, n; unfold dot, vdiv, cross3; cbn. field. assumption. }
  rewrite Hf2, Hw, Hnn. f_equal.
  - unfold atan2. destruct (Rlt_dec 0 1); [|lra].
    replace (0 / 1) with 0 by field. apply atan_0.
  - unfold angle_of. rewrite Hperp. field. assumption.
Qed.


(** ** ComputeSPFHFeature column by column *)

Section Columnwise.

Variable int_indefinite : R → Z.
Variable input : PointCloud.
Variable kdtree : KDTreeFlann.
Variable search_param : KDTreeSearchParam.

Lemma length_bump_column (hist_incr : R) (col : list R) (pf : Vector4d) :
  length (bump_column int_indefinite hist_incr col pf) = length col.
Proof. unfold bump_column. rewrite !length_alter. reflexivity. Qed.

Lemma accumulate_exact (point normal : Vector3d) (hist_incr : R) (i : nat)
    (feature : Feature) (index_k : Z) (col : list R) :
  data_ feature !! i = Some col → length col = 33%nat →
  accumulate int_indefinite input point normal hist_incr i feature index_k
  = nb ← neighbour_of input index_k;
    Some (MkFeature (<[i := bump_column int_indefinite hist_incr col
                              (ComputePairFeatures point normal nb.1 nb.2)]>
                       (data_ feature))).
Proof.
  intros Hcol Hlen. unfold accumulate, neighbour_of.
  destruct (c_index (points_ input) index_k) as [point_k|]; [|reflexivity].
  destruct (c_index (normals_ input) index_k) as [normal_k|]; [|reflexivity].
  cbn [mbind option_bind fst snd].
  set (pf := ComputePairFeatures point normal point_k normal_k).
  assert (i < length (data_ feature))%nat as Hi
    by (apply lookup_lt_is_Some; eauto).
  pose proof (bin_f1_range int_indefinite (c0 pf)) as H1.
  pose proof (bin_f23_range int_indefinite (c1 pf)) as H2.
  pose proof (bin_f23_range int_indefinite (c2 pf)) as H3.
  unfold bump_column.
  set (bump := λ y : R, y + hist_incr).
  set (col1 := alter bump (Z.to_nat (bin_f1 int_indefinite (c0 pf))) col).
  set (col2 := alter bump (Z.to_nat (bin_f23 int_indefinite (c1 pf) + 11)) col1).
  assert (length col1 = 33%nat) as Hl1 by (unfold col1; rewrite length_alter; assumption).
  assert (length col2 = 33%nat) as Hl2 by (unfold col2; rewrite length_alter; assumption).
  rewrite (coeff_add_Some _ _ _ _ col Hcol) by lia.
  cbn [mbind option_bind]. fold bump col1.
  rewrite (coeff_add_Some _ _ _ _ col1)
    by (first [apply list_lookup_insert_eq; assumption | lia]).
  cbn [mbind option_bind]. fold bump col2. rewrite list_insert_insert_eq.
  rewrite (coeff_add_Some _ _ _ _ col2)
    by (first [apply list_lookup_insert_eq; assumption | lia]).
  cbn [mbind option_bind]. rewrite list_insert_insert_eq. reflexivity.
Qed.

Lemma neighbours_exact (point normal : Vector3d) (hist_incr : R) (i : nat)
    (indices : list Z) :
  ∀ (feature : Feature) (col : list R),
  data_ feature !! i = Some col → length col = 33%nat →
  for_each (accumulate int_indefinite input point normal hist_incr i)
    feature indices
  = neighbours ← mapM (neighbour_of input) indices;
    Some (MkFeature
            (<[i := foldl (λ col nb,
                             bump_column int_indefinite hist_incr col
                               (ComputePairFeatures point normal nb.1 nb.2))
                      col neighbours]> (data_ feature))).
Proof.
  induction indices as [|j indices IH]; intros feature col Hcol Hlen.
  - cbn. rewrite list_insert_id by assumption. destruct feature; reflexivity.
  - cbn [for_each mapM].
    rewrite (accumulate_exact point normal hist_incr i feature j col Hcol Hlen).
    destruct (neighbour_of input j) as [nb|]; [|reflexivity].
    cbn [mbind option_bind].
    assert (i < length (data_ feature))%nat as Hi
      by (apply lookup_lt_is_Some; eauto).
    rewrite (IH _ (bump_column int_indefinite hist_incr col
                     (ComputePairFeatures point normal nb.1 nb.2)))
      by (first [apply list_lookup_insert_eq; assumption
                | rewrite length_bump_column; assumption]).
    cbn [data_]. destruct (mapM (neighbour_of input) indices) as [nbs|];
      [|reflexivity].
    cbn [mbind option_bind mret option_ret foldl]. rewrite list_insert_insert_eq.
    reflexivity.
Qed.

Lemma spfh_point_exact (feature : Feature) (i : nat) :
  data_ feature !! i = Some (replicate 33 0) →
  spfh_point int_indefinite input kdtree search_param feature i
  = col ← spfh_column_of int_indefinite input kdtree search_param i;
    Some (MkFeature (<[i := col]> (data_ feature))).
Proof.
  intros Hcol. unfold spfh_point, spfh_column_of.
  destruct (points_ input !! i) as [point|]; [|reflexivity].
  destruct (normals_ input !! i) as [normal|]; [|reflexivity].
  cbn [mbind option_bind].
  destruct (kdtree point search_param) as [indices distance2]. cbn [fst].
  destruct (decide (1 < length indices)%nat).
  - rewrite (neighbours_exact point normal (hist_incr_of indices) i
               (drop 1 indices) feature (replicate 33 0) Hcol)
      by apply length_replicate.
    destruct (mapM _ _); reflexivity.
  - cbn [mbind option_bind]. rewrite list_insert_id by assumption.
    destruct feature; reflexivity.
Qed.

Lemma points_loop_exact (n : nat) :
  ∀ done : list (list R),
  for_each (spfh_point int_indefinite input kdtree search_param)
    (MkFeature (done ++ replicate n (replicate 33 0))) (seq (length done) n)
  = cols ← mapM (spfh_column_of int_indefinite input kdtree search_param)
             (seq (length done) n);
    Some (MkFeature (done ++ cols)).
Proof.
  induction n as [|n IH]; intros done.
  - cbn. rewrite app_nil_r. reflexivity.
  - cbn [seq for_each mapM].
    rewrite spfh_point_exact
      by (cbn [data_]; rewrite lookup_app_r, Nat.sub_diag by lia; reflexivity).
    destruct (spfh_column_of int_indefinite input kdtree search_param (length done))
      as [col|]; [|reflexivity].
    cbn [mbind option_bind data_].
    replace (<[length done := col]> (done ++ replicate (S n) (replicate 33 0)))
      with ((done ++ [col]) ++ replicate n (replicate 33 0)).
    2:{ rewrite insert_app_r_alt, Nat.sub_diag, <- app_assoc by lia. reflexivity. }
    replace (S (length done)) with (length (done ++ [col]))
      by (rewrite length_app; cbn; lia).
    rewrite IH.
    destruct (mapM _ _) as [cols|]; [|reflexivity].
    cbn [mbind option_bind mret option_ret]. rewrite <- app_assoc. reflexivity.
Qed.

Lemma spfh_columnwise :
  ComputeSPFHFeature int_indefinite input kdtree search_param
  = MkFeature <$> mapM (spfh_column_of int_indefinite input kdtree search_param)
                    (seq 0 (length (points_ input))).
Proof.
  unfold ComputeSPFHFeature.
  pose proof (points_loop_exact (length (points_ input)) []) as Hloop.
  cbn [app length] in Hloop. unfold Resize. cbv zeta.
  etrans; [exact Hloop|]. destruct (mapM _ _); reflexivity.
Qed.

End Columnwise.

(** X10: the loops of [ComputeSPFHFeature] compute each column on its own:
    the result is the list of the columns [spfh_column_of], and the function
    reads out of bounds exactly when one of them does. *)
Theorem ComputeSPFHFeature_columnwise (int_indefinite : R → Z)
    (input : PointCloud) (kdtree : KDTreeFlann) (search_param : KDTreeSearchParam) :
  ComputeSPFHFeature int_indefinite input kdtree search_param
  = MkFeature <$> mapM (spfh_column_of int_indefinite input kdtree search_param)
                    (seq 0 (length (points_ input))).
Proof. apply spfh_columnwise. Qed.

(** ** Bins from the quotient *)

(** The conversion and the clamps on a quotient whose floor fits an [int]. *)
Lemma clamp_of_quotient (int_indefinite : R → Z) (q : R) :
  IZR INT_MIN <= q <= IZR INT_MAX →
  clamp_bin (int_of_double int_indefinite (floor q))
  = Z.max 0 (Z.min 10 (Zfloor q)).
Proof.
  intros Hq. unfold floor.
  pose proof (Zfloor_bound q) as Hb.
  assert (INT_MIN ≤ Zfloor q ≤ INT_MAX)%Z as Hz.
  { split; [apply Zfloor_lub; lra|]. apply Z.lt_succ_r, lt_IZR.
    rewrite succ_IZR. lra. }
  rewrite int_of_double_small by assumption.
  unfold clamp_bin. repeat case_decide; lia.
Qed.

Lemma Zfloor_is (q : R) (k : Z) : Zfloor q = k ↔ IZR k <= q < IZR k + 1.
Proof.
  split; [intros <-; apply Zfloor_bound|apply Zfloor_eq].
Qed.

Lemma clamped_floor_is (q : R) (k : Z) :
  0 <= q <= 11 → (0 ≤ k ≤ 10)%Z →
  Z.max 0 (Z.min 10 (Zfloor q)) = k
  ↔ IZR k <= q ∧ (q < IZR k + 1 ∨ (k = 10%Z ∧ q = 11)).
Proof.
  intros Hq Hk. pose proof (Zfloor_bound q) as Hb.
  assert (0 ≤ Zfloor q ≤ 11)%Z as Hz.
  { split; [apply Zfloor_lub; lra|]. apply le_IZR. lra. }
  split.
  - intros Heq.
    destruct (decide (Zfloor q = 11%Z)) as [H11|H11].
    + assert (k = 10%Z) as -> by lia. rewrite H11 in Hb.
      split; [lra|]. right. split; [reflexivity|lra].
    + assert (Zfloor q = k) as Hfl by lia. rewrite Hfl in Hb.
      split; [lra|]. left. lra.
  - intros [Hlo [Hhi|[-> ->]]].
    + rewrite (Zfloor_eq k q) by lra. lia.
    + rewrite ZfloorZ. reflexivity.
Qed.

(** X7: from a quotient between 0 and 11, the floor, the conversion and the
    clamps of lines 92-94 give bin [k] exactly when k <= q < k + 1, the
    quotient 11 joining bin 10. *)
Theorem bin_from_quotient (int_indefinite : R → Z) (q : R) (k : Z) :
  0 <= q <= 11 → (0 ≤ k ≤ 10)%Z →
  clamp_bin (int_of_double int_indefinite (floor q)) = k
  ↔ IZR k <= q ∧ (q < IZR k + 1 ∨ (k = 10%Z ∧ q = 11)).
Proof.
  intros Hq Hk.
  rewrite clamp_of_quotient by (unfold INT_MIN, INT_MAX; lra).
  apply clamped_floor_is; assumption.
Qed.

(** X9: a value outside the domain whose quotient still fits an [int] lands
    in bin 0 when it is below the domain and in bin 10 when it is above. *)
Theorem bin_saturation (int_indefinite : R → Z) (value : R) :
  IZR INT_MIN <= 11 * (value + 1) * 0.5 <= IZR INT_MAX →
  IZR INT_MIN <= 11 * (value + PI) / (2 * PI) <= IZR INT_MAX →
  (value < -1 → bin_f23 int_indefinite value = 0%Z) ∧
  (1 <= value → bin_f23 int_indefinite value = 10%Z) ∧
  (value < - PI → bin_f1 int_indefinite value = 0%Z) ∧
  (PI <= value → bin_f1 int_indefinite value = 10%Z).
Proof.
  intros Hfit23 Hfit1. pose proof PI_RGT_0 as Hpi.
  unfold bin_f23, bin_f1. rewrite !clamp_of_quotient by assumption.
  pose proof (Zfloor_bound (11 * (value + 1) * 0.5)) as Hb.
  set (q := 11 * (value + PI) / (2 * PI)) in *.
  assert (q * (2 * PI) = 11 * (value + PI)) as Hq by (unfold q; field; lra).
  pose proof (Zfloor_bound q) as Hb1.
  repeat split; intros Hv.
  - assert (Zfloor (11 * (value + 1) * 0.5) < 0)%Z by (apply lt_IZR; lra). lia.
  - assert (11 ≤ Zfloor (11 * (value + 1) * 0.5))%Z by (apply Zfloor_lub; lra). lia.
  - assert (Zfloor q < 0)%Z by (apply lt_IZR; nra). lia.
  - assert (11 ≤ Zfloor q)%Z by (apply Zfloor_lub; nra). lia.
Qed.

Lemma bin_f1_zero (int_indefinite : R → Z) : bin_f1 int_indefinite 0 = 5%Z.
Proof.
  pose proof PI_RGT_0 as Hpi.
  rewrite bin_f1_inside by lra. apply Zfloor_eq.
  replace (11 * (0 - - PI) / (PI - - PI)) with (11 / 2) by (field; lra). lra.
Qed.

Lemma bin_f23_zero (int_indefinite : R → Z) : bin_f23 int_indefinite 0 = 5%Z.
Proof. rewrite bin_f23_inside by lra. apply Zfloor_eq. lra. Qed.

(** ** Bounds of ComputeSPFHFeature *)

Lemma c_index_is_Some {A : Type} (l : list A) (z : Z) :
  is_Some (c_index l z) ↔ (0 ≤ z < Z.of_nat (length l))%Z.
Proof.
  unfold c_index. destruct (decide (0 ≤ z)%Z).
  - rewrite lookup_lt_is_Some. lia.
  - split; [intros [? ?]; discriminate|lia].
Qed.

Lemma neighbour_of_is_Some (input : PointCloud) (index_k : Z) :
  is_Some (neighbour_of input index_k)
  ↔ (0 ≤ index_k < Z.of_nat (length (points_ input)))%Z ∧
    (index_k < Z.of_nat (length (normals_ input)))%Z.
Proof.
  unfold neighbour_of.
  pose proof (c_index_is_Some (points_ input) index_k) as Hp.
  pose proof (c_index_is_Some (normals_ input) index_k) as Hn.
  destruct (c_index (points_ input) index_k) as [p|],
           (c_index (normals_ input) index_k) as [n|]; cbn.
  - split; [intros _|eauto].
    pose proof (proj1 Hp (mk_is_Some _ _ eq_refl)).
    pose proof (proj1 Hn (mk_is_Some _ _ eq_refl)). lia.
  - split; [intros [? ?]; discriminate|].
    intros [H1 H2]. destruct (proj2 Hn) as [? ?]; [lia|discriminate].
  - split; [intros [? ?]; discriminate|].
    intros [H1 H2]. destruct (proj2 Hp) as [? ?]; [lia|discriminate].
  - split; [intros [? ?]; discriminate|].
    intros [H1 H2]. destruct (proj2 Hp) as [? ?]; [lia|discriminate].
Qed.

Lemma spfh_column_of_is_Some (int_indefinite : R → Z) (input : PointCloud)
    (kdtree : KDTreeFlann) (search_param : KDTreeSearchParam)
    (i : nat) (point : Vector3d) :
  points_ input !! i = Some point →
  is_Some (spfh_column_of int_indefinite input kdtree search_param i)
  ↔ (i < length (normals_ input))%nat ∧
    ((1 < length (kdtree point search_param).1)%nat →
     Forall (is_Some ∘ neighbour_of input) (drop 1 (kdtree point search_param).1)).
Proof.
  intros Hpoint. unfold spfh_column_of. rewrite Hpoint. cbn [mbind option_bind].
  rewrite <- (lookup_lt_is_Some (normals_ input) i).
  destruct (normals_ input !! i) as [normal|]; cbn [mbind option_bind].
  2:{ split; [intros [? ?]; discriminate|intros [[? ?] _]; discriminate]. }
  destruct (decide (1 < length (kdtree point search_param).1)%nat) as [Hmany|Hfew].
  - rewrite <- mapM_is_Some.
    destruct (mapM (neighbour_of input) (drop 1 (kdtree point search_param).1));
      cbn [mbind option_bind].
    + split; [intros _; split; eauto|eauto].
    + split; [intros [? ?]; discriminate|].
      intros [_ Hnone]. destruct (Hnone Hmany); discriminate.
  - split; [intros _; split; [eauto|intros; contradiction]|eauto].
Qed.

Lemma spfh_in_bounds (int_indefinite : R → Z)
    (input : PointCloud) (kdtree : KDTreeFlann) (search_param : KDTreeSearchParam) :
  is_Some (ComputeSPFHFeature int_indefinite input kdtree search_param)
  ↔ (length (points_ input) ≤ length (normals_ input))%nat ∧
    ∀ i point, points_ input !! i = Some point →
      (1 < length (kdtree point search_param).1)%nat →
      Forall (λ j, (0 ≤ j < Z.of_nat (length (points_ input)))%Z)
        (drop 1 (kdtree point search_param).1).
Proof.
  rewrite spfh_columnwise, fmap_is_Some, mapM_is_Some, Forall_forall.
  split.
  - intros Hall.
    assert (∀ i point, points_ input !! i = Some point →
              is_Some (spfh_column_of int_indefinite input kdtree search_param i))
      as Hcols.
    { intros i point Hpoint. apply (Hall i), elem_of_seq.
      apply lookup_lt_Some in Hpoint. lia. }
    split.
    + destruct (length (points_ input)) as [|n] eqn:HN; [lia|].
      destruct (lookup_lt_is_Some_2 (points_ input) n) as [point Hpoint]; [lia|].
      pose proof (Hcols n point Hpoint) as Hcol.
      apply (spfh_column_of_is_Some _ _ _ _ _ _ Hpoint) in Hcol as [Hn _]. lia.
    + intros i point Hpoint Hmany.
      pose proof (Hcols i point Hpoint) as Hcol.
      apply (spfh_column_of_is_Some _ _ _ _ _ _ Hpoint) in Hcol as [_ Hnb].
      eapply Forall_impl; [exact (Hnb Hmany)|].
      intros j Hj. unfold compose in Hj. apply neighbour_of_is_Some in Hj. lia.
  - intros [Hnormals Hvalid] i Hi. apply elem_of_seq in Hi.
    destruct (lookup_lt_is_Some_2 (points_ input) i) as [point Hpoint]; [lia|].
    apply (spfh_column_of_is_Some _ _ _ _ _ _ Hpoint). split; [lia|].
    intros Hmany. eapply Forall_impl; [exact (Hvalid i point Hpoint Hmany)|].
    intros j Hj. cbv beta in Hj. apply neighbour_of_is_Some. lia.
Qed.

(** X11: [ComputeSPFHFeature] stays within the bounds of its vectors exactly
    when there are at least as many normals as points and every index after
    the first of a query with more than one index denotes a point. *)
Theorem ComputeSPFHFeature_in_bounds_iff (int_indefinite : R → Z)
    (input : PointCloud) (kdtree : KDTreeFlann) (search_param : KDTreeSearchParam) :
  is_Some (ComputeSPFHFeature int_indefinite input kdtree search_param)
  ↔ (length (points_ input) ≤ length (normals_ input))%nat ∧
    ∀ i point, points_ input !! i = Some point →
      (1 < length (kdtree point search_param).1)%nat →
      Forall (λ j, (0 ≤ j < Z.of_nat (length (points_ input)))%Z)
        (drop 1 (kdtree point search_param).1).
Proof. apply spfh_in_bounds. Qed.

(** ** Shape, sign and flat patches *)

Section Columns.

Variable int_indefinite : R → Z.

Lemma bump_column_lookup (hist_incr : R) (col : list R) (pf : Vector4d) (r : nat) :
  bump_column int_indefinite hist_incr col pf !! r
  = (λ x, if decide (r = (rows_of int_indefinite pf).1.1 ∨ r = (rows_of int_indefinite pf).1.2 ∨ r = (rows_of int_indefinite pf).2)
          then x + hist_incr else x) <$> col !! r.
Proof.
  unfold bump_column, rows_of. cbn [fst snd].
  pose proof (bin_f1_range int_indefinite (c0 pf)) as H1.
  pose proof (bin_f23_range int_indefinite (c1 pf)) as H2.
  pose proof (bin_f23_range int_indefinite (c2 pf)) as H3.
  rewrite !list_lookup_alter.
  repeat case_decide; subst; try lia; destruct (col !! _); try reflexivity;
    exfalso; intuition lia.
Qed.

Lemma bump_fold_length (point normal : Vector3d) (hist_incr : R)
    (neighbours : list (Vector3d * Vector3d)) :
  ∀ col : list R,
  length (foldl (λ col nb,
                   bump_column int_indefinite hist_incr col
                     (ComputePairFeatures point normal nb.1 nb.2))
            col neighbours) = length col.
Proof.
  induction neighbours as [|nb neighbours IH]; intros col; [reflexivity|].
  cbn [foldl]. rewrite IH. apply length_bump_column.
Qed.

Lemma bump_fold_range (point normal : Vector3d) (hist_incr : R)
    (neighbours : list (Vector3d * Vector3d)) :
  0 <= hist_incr →
  ∀ (col : list R) (bound : R),
  (∀ r x, col !! r = Some x → 0 <= x <= bound) →
  ∀ r x,
    foldl (λ col nb,
             bump_column int_indefinite hist_incr col
               (ComputePairFeatures point normal nb.1 nb.2))
      col neighbours !! r = Some x →
    0 <= x <= bound + INR (length neighbours) * hist_incr.
Proof.
  intros Hincr.
  induction neighbours as [|nb neighbours IH]; intros col bound Hcol r x Hx.
  - cbn in Hx |- *. specialize (Hcol r x Hx). lra.
  - cbn [foldl] in Hx. change (length (nb :: neighbours)) with (S (length neighbours)).
    rewrite S_INR.
    eapply (IH _ (bound + hist_incr)) in Hx; [lra|].
    intros r' x' Hx'. rewrite bump_column_lookup in Hx'.
    destruct (col !! r') as [y|] eqn:Hy; [|discriminate].
    specialize (Hcol r' y Hy). cbn in Hx'. injection Hx' as <-.
    case_decide; lra.
Qed.

(** Neighbours whose three angular features are all zero add to rows 5, 16
    and 27. *)
Lemma bump_fold_zero_features (point normal : Vector3d) (hist_incr : R)
    (neighbours : list (Vector3d * Vector3d)) :
  Forall (λ nb, let pf := ComputePairFeatures point normal nb.1 nb.2 in
                c0 pf = 0 ∧ c1 pf = 0 ∧ c2 pf = 0) neighbours →
  ∀ (col : list R) (r : nat),
    foldl (λ col nb,
             bump_column int_indefinite hist_incr col
               (ComputePairFeatures point normal nb.1 nb.2))
      col neighbours !! r
    = (λ x, if decide (r = 5 ∨ r = 16 ∨ r = 27)%nat
            then x + INR (length neighbours) * hist_incr else x) <$> col !! r.
Proof.
  induction 1 as [|nb neighbours Hnb _ IH]; intros col r.
  - cbn. destruct (col !! r); cbn; [|reflexivity]. case_decide; f_equal; lra.
  - cbn [foldl]. rewrite IH, bump_column_lookup.
    cbv zeta in Hnb. destruct Hnb as (H0 & H1 & H2).
    unfold rows_of. cbn [fst snd]. rewrite H0, H1, H2, bin_f1_zero, bin_f23_zero.
    change (length (nb :: neighbours)) with (S (length neighbours)). rewrite S_INR.
    destruct (col !! r); cbn; [|reflexivity].
    change (Z.to_nat 5) with 5%nat. change (Z.to_nat (5 + 11)) with 16%nat.
    change (Z.to_nat (5 + 22)) with 27%nat.
    repeat case_decide; f_equal; first [lra | tauto].
Qed.

Variable input : PointCloud.
Variable kdtree : KDTreeFlann.
Variable search_param : KDTreeSearchParam.

Lemma spfh_columns (feature : Feature) :
  ComputeSPFHFeature int_indefinite input kdtree search_param = Some feature →
  length (data_ feature) = length (points_ input) ∧
  ∀ i col, data_ feature !! i = Some col →
    spfh_column_of int_indefinite input kdtree search_param i = Some col.
Proof.
  rewrite spfh_columnwise. intros Hrun.
  apply fmap_Some in Hrun as (cols & Hcols & ->). cbn [data_].
  apply mapM_Some in Hcols. split.
  - apply Forall2_length in Hcols. rewrite length_seq in Hcols. lia.
  - intros i col Hcol.
    destruct (Forall2_lookup_r _ _ _ _ _ Hcols Hcol) as (j & Hj & Hspec).
    apply lookup_seq in Hj as [-> _]. exact Hspec.
Qed.

Lemma neighbours_count (indices : list Z) (neighbours : list (Vector3d * Vector3d)) :
  mapM (neighbour_of input) (drop 1 indices) = Some neighbours →
  length neighbours = (length indices - 1)%nat.
Proof. intros H. apply length_mapM in H. rewrite length_drop in H. lia. Qed.

End Columns.

Section Invariants.

Variable int_indefinite : R → Z.
Variable input : PointCloud.
Variable kdtree : KDTreeFlann.
Variable search_param : KDTreeSearchParam.

(** X12: a feature returned by [ComputeSPFHFeature] has 33 rows and one
    column per point, and none of its entries is negative. *)
Theorem ComputeSPFHFeature_shape_and_sign (feature : Feature) :
  ComputeSPFHFeature int_indefinite input kdtree search_param = Some feature →
  has_dims (data_ feature) 33 (length (points_ input)) ∧
  ∀ r c x, coeff (data_ feature) r c = Some x → 0 <= x.
Proof.
  intros Hrun.
  destruct (spfh_columns int_indefinite input kdtree search_param feature Hrun)
    as [Hlen Hcols].
  assert (∀ c col, data_ feature !! c = Some col →
            length col = 33%nat ∧ ∀ r x, col !! r = Some x → 0 <= x) as Hall.
  { intros c col Hcol. apply Hcols in Hcol. unfold spfh_column_of in Hcol.
    destruct (points_ input !! c) as [point|]; [|discriminate].
    destruct (normals_ input !! c) as [normal|]; [|discriminate].
    cbn [mbind option_bind] in Hcol.
    destruct (decide (1 < length (kdtree point search_param).1)%nat) as [Hmany|_].
    - destruct (mapM _ _) as [neighbours|] eqn:Hnbs; [|discriminate].
      cbn [mbind option_bind] in Hcol.
      assert (col = histogram int_indefinite point normal
                      (hist_incr_of (kdtree point search_param).1) neighbours)
        as -> by congruence.
      unfold histogram. split.
      + rewrite bump_fold_length. apply length_replicate.
      + intros r x Hx.
        assert (0 < INR (length (kdtree point search_param).1 - 1)) as Hpos
          by (apply lt_0_INR; lia).
        apply bump_fold_range with (bound := 0) in Hx; [lra| |].
        * unfold hist_incr_of. apply Rlt_le, Rdiv_lt_0_compat; lra.
        * intros r' x' Hx'. apply lookup_replicate_1 in Hx' as [-> _]. lra.
    - assert (col = replicate 33 0) as -> by congruence.
      split; [apply length_replicate|].
      intros r x Hx. apply lookup_replicate_1 in Hx as [-> _]. lra. }
  split; [split; [exact Hlen|]|].
  - intros c col Hcol. apply (Hall c col Hcol).
  - intros r c x Hx. unfold coeff in Hx.
    destruct (data_ feature !! c) as [col|] eqn:Hcol; [|discriminate].
    cbn in Hx. apply (Hall c col Hcol) in Hx. exact Hx.
Qed.

(** X13: on a cloud whose normals all equal one unit vector [n] and whose
    points, of coordinates at most 2^1000 in magnitude, lie in a plane
    orthogonal to [n], the column of a point with at least one neighbour
    holds one positive value in rows 5, 16 and 27 and 0 in every other
    row. *)
Theorem ComputeSPFHFeature_flat_patch (n : Vector3d) (feature : Feature)
    (i : nat) (point : Vector3d) :
  norm n = 1 →
  Forall (λ normal, normal = n) (normals_ input) →
  (∀ p q, p ∈ points_ input → q ∈ points_ input → dot n (vsub q p) = 0) →
  Forall within_bound (points_ input) →
  ComputeSPFHFeature int_indefinite input kdtree search_param = Some feature →
  points_ input !! i = Some point →
  (1 < length (kdtree point search_param).1)%nat →
  ∃ x, 0 < x ∧
    ∀ r, (r < 33)%nat →
      coeff (data_ feature) r i
      = Some (if decide (r = 5 ∨ r = 16 ∨ r = 27)%nat then x else 0).
Proof.
  intros Hn Hnormals Hplane _ Hrun Hpoint Hmany.
  assert (0 < INR (length (kdtree point search_param).1 - 1)) as Hpos
    by (apply lt_0_INR; lia).
  exists (INR (length (kdtree point search_param).1 - 1)
          * hist_incr_of (kdtree point search_param).1).
  split.
  { unfold hist_incr_of. apply Rmult_lt_0_compat; [assumption|].
    apply Rdiv_lt_0_compat; lra. }
  intros r Hr.
  destruct (spfh_columns int_indefinite input kdtree search_param feature Hrun)
    as [Hlen Hcols].
  destruct (lookup_lt_is_Some_2 (data_ feature) i) as [col Hcol].
  { rewrite Hlen. apply lookup_lt_is_Some; eauto. }
  unfold coeff. rewrite Hcol. cbn [mbind option_bind].
  apply Hcols in Hcol. unfold spfh_column_of in Hcol. rewrite Hpoint in Hcol.
  destruct (normals_ input !! i) as [normal|] eqn:Hnormal; [|discriminate].
  cbn [mbind option_bind] in Hcol. rewrite decide_True in Hcol by assumption.
  destruct (mapM _ _) as [neighbours|] eqn:Hnbs; [|discriminate].
  cbn [mbind option_bind] in Hcol.
  assert (col = histogram int_indefinite point normal
                  (hist_incr_of (kdtree point search_param).1) neighbours)
    as -> by congruence.
  assert (normal = n) as -> by (apply (Forall_lookup_1 _ _ _ _ Hnormals Hnormal)).
  assert (Forall (λ nb, let pf := ComputePairFeatures point n nb.1 nb.2 in
                        c0 pf = 0 ∧ c1 pf = 0 ∧ c2 pf = 0) neighbours) as Hzero.
  { apply mapM_Some in Hnbs. apply (Forall2_Forall_r _ _ _ _ Hnbs).
    apply Forall_forall. intros j _ [q m] Hnb. unfold neighbour_of, c_index in Hnb.
    destruct (decide (0 ≤ j)%Z); [|discriminate].
    destruct (points_ input !! Z.to_nat j) as [q'|] eqn:Hq; [|discriminate].
    destruct (normals_ input !! Z.to_nat j) as [m'|] eqn:Hm; [|discriminate].
    cbn in Hnb. injection Hnb as -> ->.
    assert (m = n) as -> by (apply (Forall_lookup_1 _ _ _ _ Hnormals Hm)).
    cbn [fst snd]. rewrite planar_pair; [cbn; auto|assumption|].
    apply Hplane; eapply list_elem_of_lookup_2; eassumption. }
  unfold histogram. rewrite (bump_fold_zero_features _ _ _ _ _ Hzero).
  rewrite lookup_replicate_2 by assumption. cbn. f_equal.
  rewrite (neighbours_count input _ _ Hnbs).
  case_decide; [ring|reflexivity].
Qed.

End Invariants.

(** ** ComputeSPFHFeature under translations *)

Lemma c_index_fmap {A B : Type} (f : A → B) (l : list A) (z : Z) :
  c_index (f <$> l) z = f <$> c_index l z.
Proof.
  unfold c_index. destruct (decide (0 ≤ z)%Z); [|reflexivity].
  apply list_lookup_fmap.
Qed.

Lemma mapM_fmap_result {A B C : Type} (f : A → option B) (g : B → C) (l : list A) :
  mapM (λ x, g <$> f x) l = fmap g <$> mapM f l.
Proof.
  induction l as [|x l IH]; [reflexivity|].
  cbn [mapM]. rewrite IH. destruct (f x); [|reflexivity].
  cbn. destruct (mapM f l); reflexivity.
Qed.

Section Translated.

Variable int_indefinite : R → Z.
Variable t : Vector3d.

Lemma neighbour_of_translated (input : PointCloud) (index_k : Z) :
  neighbour_of (translate_cloud t input) index_k
  = translate_neighbour t <$> neighbour_of input index_k.
Proof.
  unfold neighbour_of, translate_cloud. cbn [points_ normals_].
  rewrite c_index_fmap.
  destruct (c_index (points_ input) index_k); [|reflexivity].
  destruct (c_index (normals_ input) index_k); reflexivity.
Qed.

Lemma pair_features_translated (p1 n1 p2 n2 : Vector3d) :
  ComputePairFeatures (vadd p1 t) n1 (vadd p2 t) n2
  = ComputePairFeatures p1 n1 p2 n2.
Proof. unfold ComputePairFeatures. rewrite vsub_translate. reflexivity. Qed.

Lemma bump_fold_translated (point normal : Vector3d) (hist_incr : R)
    (neighbours : list (Vector3d * Vector3d)) :
  ∀ col : list R,
  foldl (λ col nb,
           bump_column int_indefinite hist_incr col
             (ComputePairFeatures (vadd point t) normal nb.1 nb.2))
    col (translate_neighbour t <$> neighbours)
  = foldl (λ col nb,
             bump_column int_indefinite hist_incr col
               (ComputePairFeatures point normal nb.1 nb.2))
      col neighbours.
Proof.
  induction neighbours as [|nb neighbours IH]; intros col; [reflexivity|].
  rewrite fmap_cons. cbn [foldl]. rewrite IH. f_equal. f_equal.
  unfold translate_neighbour. cbn [fst snd]. apply pair_features_translated.
Qed.

Lemma spfh_column_of_translated (input : PointCloud)
    (kdtree kdtree' : KDTreeFlann) (search_param : KDTreeSearchParam) (i : nat) :
  (∀ i point, points_ input !! i = Some point →
     (kdtree' (vadd point t) search_param).1 = (kdtree point search_param).1) →
  spfh_column_of int_indefinite (translate_cloud t input) kdtree' search_param i
  = spfh_column_of int_indefinite input kdtree search_param i.
Proof.
  intros Hsame. unfold spfh_column_of.
  change (points_ (translate_cloud t input))
    with ((λ p, vadd p t) <$> points_ input).
  change (normals_ (translate_cloud t input)) with (normals_ input).
  rewrite list_lookup_fmap.
  destruct (points_ input !! i) as [point|] eqn:Hpoint; [|reflexivity].
  destruct (normals_ input !! i) as [normal|]; [|reflexivity].
  cbn [fmap option_fmap option_map mbind option_bind].
  rewrite (Hsame i point Hpoint).
  destruct (decide (1 < length (kdtree point search_param).1)%nat); [|reflexivity].
  rewrite (mapM_ext _ _ _ (neighbour_of_translated input)), mapM_fmap_result.
  destruct (mapM (neighbour_of input) (drop 1 (kdtree point search_param).1))
    as [neighbours|]; [|reflexivity].
  cbn [fmap option_fmap option_map mbind option_bind]. f_equal.
  apply bump_fold_translated.
Qed.

(** X14: translating every position of the cloud by [t] does not change the
    result of [ComputeSPFHFeature], given a query that finds the same
    indices after the translation. *)
Theorem ComputeSPFHFeature_translation (input : PointCloud)
    (kdtree kdtree' : KDTreeFlann) (search_param : KDTreeSearchParam) :
  (∀ i point, points_ input !! i = Some point →
     (kdtree' (vadd point t) search_param).1 = (kdtree point search_param).1) →
  ComputeSPFHFeature int_indefinite (translate_cloud t input) kdtree' search_param
  = ComputeSPFHFeature int_indefinite input kdtree search_param.
Proof.
  intros Hsame. rewrite !spfh_columnwise.
  change (points_ (translate_cloud t input))
    with ((λ p, vadd p t) <$> points_ input).
  rewrite length_fmap. f_equal. apply mapM_ext. intros i.
  apply spfh_column_of_translated. exact Hsame.
Qed.

End Translated.

(** ** What the query contributes *)

Lemma spfh_column_of_same_neighbours (int_indefinite : R → Z)
    (input : PointCloud) (kdtree kdtree' : KDTreeFlann)
    (search_param : KDTreeSearchParam) (i : nat) :
  (∀ i point, points_ input !! i = Some point →
     drop 1 (kdtree' point search_param).1 = drop 1 (kdtree point search_param).1) →
  spfh_column_of int_indefinite input kdtree' search_param i
  = spfh_column_of int_indefinite input kdtree search_param i.
Proof.
  intros Hsame. unfold spfh_column_of.
  destruct (points_ input !! i) as [point|] eqn:Hpoint; [|reflexivity].
  destruct (normals_ input !! i) as [normal|]; [|reflexivity].
  cbn [mbind option_bind]. specialize (Hsame i point Hpoint).
  assert (length (kdtree' point search_param).1 - 1
          = length (kdtree point search_param).1 - 1)%nat as Hlen
    by (rewrite <- !length_drop, Hsame; reflexivity).
  unfold hist_incr_of. rewrite Hsame, Hlen.
  destruct (decide (1 < length (kdtree' point search_param).1)%nat),
           (decide (1 < length (kdtree point search_param).1)%nat);
    first [reflexivity | lia].
Qed.

(** X15: [ComputeSPFHFeature] depends on a query only through the indices
    after the first: neither the first index nor the squared distances are
    read. *)
Theorem ComputeSPFHFeature_reads_neighbours_only (int_indefinite : R → Z)
    (input : PointCloud) (kdtree kdtree' : KDTreeFlann)
    (search_param : KDTreeSearchParam) :
  (∀ i point, points_ input !! i = Some point →
     drop 1 (kdtree' point search_param).1 = drop 1 (kdtree point search_param).1) →
  ComputeSPFHFeature int_indefinite input kdtree' search_param
  = ComputeSPFHFeature int_indefinite input kdtree search_param.
Proof.
  intros Hsame. rewrite !spfh_columnwise. f_equal. apply mapM_ext. intros i.
  apply spfh_column_of_same_neighbours. exact Hsame.
Qed.

(** X16: [ComputeFPFHFeature] stays within the bounds of its vectors exactly
    when the cloud has no normals, or there are at least as many normals as
    points and every index after the first of a query with more than one
    index denotes a point: the dropped SPFH computation is still run. *)
Theorem ComputeFPFHFeature_in_bounds_iff (int_indefinite : R → Z)
    (HasNormals : PointCloud → bool) (build_kdtree : PointCloud → KDTreeFlann)
    (input : PointCloud) (search_param : KDTreeSearchParam) :
  is_Some (ComputeFPFHFeature int_indefinite HasNormals build_kdtree input
             search_param)
  ↔ HasNormals input = false ∨
    ((length (points_ input) ≤ length (normals_ input))%nat ∧
     ∀ i point, points_ input !! i = Some point →
       (1 < length (build_kdtree input point search_param).1)%nat →
       Forall (λ j, (0 ≤ j < Z.of_nat (length (points_ input)))%Z)
         (drop 1 (build_kdtree input point search_param).1)).
Proof.
  rewrite <- (spfh_in_bounds int_indefinite input (build_kdtree input) search_param).
  unfold ComputeFPFHFeature.
  destruct (HasNormals input); cbn [negb].
  - destruct (ComputeSPFHFeature _ _ _ _) as [spfh|]; cbn [mbind option_bind]; split.
    + intros _. right. exists spfh. reflexivity.
    + intros _. eexists. reflexivity.
    + intros [? ?]; discriminate.
    + intros [?|[? ?]]; discriminate.
  - split; [left; reflexivity|intros _; eexists; reflexivity].
Qed.

(** ** Concrete instances of the further properties *)


Lemma two_fits_int :
  IZR INT_MIN <= 11 * (2 + 1) * 0.5 <= IZR INT_MAX ∧
  IZR INT_MIN <= 11 * (2 + PI) / (2 * PI) <= IZR INT_MAX.
Proof.
  split; [unfold INT_MIN, INT_MAX; lra|].
  pose proof PI2_1 as Hpi.
  set (q := 11 * (2 + PI) / (2 * PI)).
  assert (q * (2 * PI) = 11 * (2 + PI)) as Hq by (unfold q; field; lra).
  unfold INT_MIN, INT_MAX. split; nra.
Qed.

Lemma two_points_planar :
  Forall (λ normal, normal = Vec3 0 0 1) (normals_ two_points) ∧
  ∀ p q, p ∈ points_ two_points → q ∈ points_ two_points →
    dot (Vec3 0 0 1) (vsub q p) = 0.
Proof.
  split; [repeat constructor|]. intros p q Hp Hq. cbn in Hp, Hq.
  repeat (apply elem_of_cons in Hp as [->|Hp]);
    try (apply elem_of_nil in Hp; contradiction);
    repeat (apply elem_of_cons in Hq as [->|Hq]);
    try (apply elem_of_nil in Hq; contradiction);
    unfold dot, vsub; cbn; ring.
Qed.

Lemma two_points_runs :
  ∃ feature,
    ComputeSPFHFeature int_indefinite_x86 two_points two_points_kdtree
      (KDTreeSearchParamKNN 2) = Some feature.
Proof.
  destruct (spfh_column int_indefinite_x86 two_points two_points_kdtree
              (KDTreeSearchParamKNN 2) 0 (Vec3 0 0 0)
              (proj1 two_points_ready) (proj2 two_points_ready) eq_refl)
    as (feature & _ & Hrun & _).
  exists feature. exact Hrun.
Qed.

Lemma two_points_other_query :
  ∀ i point, points_ two_points !! i = Some point →
    drop 1 (two_points_kdtree_far point (KDTreeSearchParamKNN 2)).1
    = drop 1 (two_points_kdtree point (KDTreeSearchParamKNN 2)).1.
Proof.
  intros i point _. unfold two_points_kdtree_far, two_points_kdtree.
  destruct (Req_dec_T (vx point) 0); reflexivity.
Qed.

Lemma one_within_bound : 1 <= coordinate_bound.
Proof. unfold coordinate_bound. apply pow_R1_Rle. lra. Qed.

Lemma small_within_bound (p : Vector3d) :
  Rabs (vx p) <= 1 → Rabs (vy p) <= 1 → Rabs (vz p) <= 1 → within_bound p.
Proof.
  intros Hx Hy Hz. pose proof one_within_bound. unfold within_bound.
  repeat split; lra.
Qed.

Lemma origin_within_bound : within_bound (Vec3 0 0 0).
Proof. apply small_within_bound; cbn; rewrite Rabs_R0; lra. Qed.

Lemma unit_x_within_bound : within_bound (Vec3 1 0 0).
Proof.
  apply small_within_bound; cbn; rewrite ?Rabs_R0, ?Rabs_R1; lra.
Qed.

Lemma two_points_within_bound : Forall within_bound (points_ two_points).
Proof.
  unfold two_points. cbn [points_].
  constructor; [exact origin_within_bound|].
  constructor; [exact unit_x_within_bound|]. constructor.
Qed.

Lemma two_points_translated_query :
  ∀ i point, points_ two_points !! i = Some point →
    (two_points_kdtree (vadd point (Vec3 0 2 3)) (KDTreeSearchParamKNN 2)).1
    = (two_points_kdtree point (KDTreeSearchParamKNN 2)).1.
Proof.
  intros i point _. unfold two_points_kdtree, vadd. cbn [vx].
  destruct (Req_dec_T (vx point + 0) 0), (Req_dec_T (vx point) 0);
    first [reflexivity | lra].
Qed.


Lemma bin_from_quotient_witness :
  0 <= 11 / 2 <= 11 ∧ (0 ≤ 5 ≤ 10)%Z ∧
  (clamp_bin (int_of_double int_indefinite_x86 (floor (11 / 2))) = 5%Z
   ↔ IZR 5 <= 11 / 2 ∧ (11 / 2 < IZR 5 + 1 ∨ (5%Z = 10%Z ∧ 11 / 2 = 11))).
Proof.
  split; [lra|]. split; [lia|].
  apply (bin_from_quotient int_indefinite_x86 (11 / 2) 5); [lra|lia].
Defined.

Lemma ComputeSPFHFeature_shape_and_sign_witness :
  ∃ feature,
    ComputeSPFHFeature int_indefinite_x86 two_points two_points_kdtree
      (KDTreeSearchParamKNN 2) = Some feature ∧
    has_dims (data_ feature) 33 2 ∧
    ∀ r c x, coeff (data_ feature) r c = Some x → 0 <= x.
Proof.
  destruct two_points_runs as [feature Hrun]. exists feature.
  split; [exact Hrun|].
  apply (ComputeSPFHFeature_shape_and_sign int_indefinite_x86 two_points
           two_points_kdtree (KDTreeSearchParamKNN 2) feature Hrun).
Defined.

Lemma ComputeSPFHFeature_flat_patch_witness :
  norm (Vec3 0 0 1) = 1 ∧
  Forall (λ normal, normal = Vec3 0 0 1) (normals_ two_points) ∧
  (∀ p q, p ∈ points_ two_points → q ∈ points_ two_points →
     dot (Vec3 0 0 1) (vsub q p) = 0) ∧
  Forall within_bound (points_ two_points) ∧
  points_ two_points !! 0%nat = Some (Vec3 0 0 0) ∧
  (1 < length (two_points_kdtree (Vec3 0 0 0) (KDTreeSearchParamKNN 2)).1)%nat ∧
  ∃ feature,
    ComputeSPFHFeature int_indefinite_x86 two_points two_points_kdtree
      (KDTreeSearchParamKNN 2) = Some feature ∧
    ∃ x, 0 < x ∧
      ∀ r, (r < 33)%nat →
        coeff (data_ feature) r 0
        = Some (if decide (r = 5 ∨ r = 16 ∨ r = 27)%nat then x else 0).
Proof.
  assert (1 < length (two_points_kdtree (Vec3 0 0 0) (KDTreeSearchParamKNN 2)).1)%nat
    as Hmany by (rewrite two_points_first_query; cbn; lia).
  split; [exact unit_z|]. split; [apply two_points_planar|].
  split; [apply two_points_planar|]. split; [exact two_points_within_bound|].
  split; [reflexivity|]. split; [exact Hmany|].
  destruct two_points_runs as [feature Hrun]. exists feature.
  split; [exact Hrun|].
  apply (ComputeSPFHFeature_flat_patch int_indefinite_x86 two_points
           two_points_kdtree (KDTreeSearchParamKNN 2) (Vec3 0 0 1) feature 0
           (Vec3 0 0 0) unit_z (proj1 two_points_planar) (proj2 two_points_planar)
           two_points_within_bound Hrun eq_refl Hmany).
Defined.

Lemma ComputeSPFHFeature_translation_witness :
  (∀ i point, points_ two_points !! i = Some point →
     (two_points_kdtree (vadd point (Vec3 0 2 3)) (KDTreeSearchParamKNN 2)).1
     = (two_points_kdtree point (KDTreeSearchParamKNN 2)).1) ∧
  ComputeSPFHFeature int_indefinite_x86 (translate_cloud (Vec3 0 2 3) two_points)
    two_points_kdtree (KDTreeSearchParamKNN 2)
  = ComputeSPFHFeature int_indefinite_x86 two_points two_points_kdtree
      (KDTreeSearchParamKNN 2).
Proof.
  split; [exact two_points_translated_query|].
  apply (ComputeSPFHFeature_translation int_indefinite_x86 (Vec3 0 2 3)
           two_points two_points_kdtree two_points_kdtree (KDTreeSearchParamKNN 2)
           two_points_translated_query).
Defined.

Lemma bin_saturation_witness :
  IZR INT_MIN <= 11 * (2 + 1) * 0.5 <= IZR INT_MAX ∧
  IZR INT_MIN <= 11 * (2 + PI) / (2 * PI) <= IZR INT_MAX ∧
  (2 < -1 → bin_f23 int_indefinite_x86 2 = 0%Z) ∧
  (1 <= 2 → bin_f23 int_indefinite_x86 2 = 10%Z) ∧
  (2 < - PI → bin_f1 int_indefinite_x86 2 = 0%Z) ∧
  (PI <= 2 → bin_f1 int_indefinite_x86 2 = 10%Z).
Proof.
  split; [apply two_fits_int|]. split; [apply two_fits_int|].
  apply (bin_saturation int_indefinite_x86 2 (proj1 two_fits_int)
           (proj2 two_fits_int)).
Defined.

Lemma ComputeSPFHFeature_reads_neighbours_only_witness :
  (∀ i point, points_ two_points !! i = Some point →
     drop 1 (two_points_kdtree_far point (KDTreeSearchParamKNN 2)).1
     = drop 1 (two_points_kdtree point (KDTreeSearchParamKNN 2)).1) ∧
  ComputeSPFHFeature int_indefinite_x86 two_points two_points_kdtree_far
    (KDTreeSearchParamKNN 2)
  = ComputeSPFHFeature int_indefinite_x86 two_points two_points_kdtree
      (KDTreeSearchParamKNN 2).
Proof.
  split; [exact two_points_other_query|].
  apply (ComputeSPFHFeature_reads_neighbours_only int_indefinite_x86 two_points
           two_points_kdtree two_points_kdtree_far (KDTreeSearchParamKNN 2)
           two_points_other_query).
Defined.

End three.
